(** * Tic-tac-toe with minimax and alpha-beta search (main.py)

    A shallow embedding of [main.py]: the [TicTacToe] board class, the
    [TicTacToeAI] search class with its two node counters, the move selector,
    the data part of [compare_performance], and the interactive game of the
    [__main__] block with what it writes to standard output.

    Python objects live in a store.  A game object is a heap cell holding the
    grid and the current-turn marker; [copy.deepcopy] allocates a new cell
    (the rows of a grid are created per object by [__init__] and by
    [deepcopy], so no two game objects share a row), and [make_move] mutates
    the cell it is called on.  The recursion of the searches is bounded by a
    fuel argument: running out of fuel is a separate outcome, never a result. *)

From Stdlib Require Import ZArith Lia Bool QArith String Ascii.
From stdpp Require Import base option list sorting strings pretty.

Local Open Scope Z_scope.

(** ** Outcomes: a result, a Python exception, or fuel exhausted *)

Inductive exn : Type :=
| IndexError          (* a list indexed out of its range *)
| ZeroDivisionError   (* [/] with a zero divisor *)
| NoSuchObject.       (* a reference to no heap cell; no Python run has one *)

Inductive outcome (A : Type) : Type :=
| Done (a : A)
| Raise (e : exn)
| OutOfFuel.

Arguments Done {A} a.
Arguments Raise {A} e.
Arguments OutOfFuel {A}.

Definition obind {A B} (o : outcome A) (k : A -> outcome B) : outcome B :=
  match o with
  | Done a => k a
  | Raise e => Raise e
  | OutOfFuel => OutOfFuel
  end.

Notation "x <- o ;; k" := (obind o (fun x => k))
  (at level 20, o at level 99, k at level 200, only parsing).

(** ** Scores: Python ints together with [float('inf')] and [float('-inf')] *)

Inductive ext : Type :=
| NegInf
| Fin (z : Z)
| PosInf.

Definition ext_lt (a b : ext) : bool :=
  match a, b with
  | NegInf, NegInf => false
  | NegInf, _ => true
  | Fin _, NegInf => false
  | Fin x, Fin y => x <? y
  | Fin _, PosInf => true
  | PosInf, _ => false
  end.

Definition ext_le (a b : ext) : bool := negb (ext_lt b a).

(** [max(a, b)] keeps [a] unless [b] is greater; [min(a, b)] keeps [a]
    unless [b] is smaller. *)
Definition py_max (a b : ext) : ext := if ext_lt a b then b else a.
Definition py_min (a b : ext) : ext := if ext_lt b a then b else a.

(** ** Python lists indexed by an int *)

(** A negative index counts from the end; anything else out of range is an
    [IndexError]. *)
Definition norm_index (len : nat) (i : Z) : option nat :=
  if i <? 0
  then (if 0 <=? Z.of_nat len + i then Some (Z.to_nat (Z.of_nat len + i)) else None)
  else (if i <? Z.of_nat len then Some (Z.to_nat i) else None).

Definition py_get {A} (l : list A) (i : Z) : outcome A :=
  match norm_index (length l) i with
  | Some k => match l !! k with Some a => Done a | None => Raise IndexError end
  | None => Raise IndexError
  end.

Definition py_set {A} (l : list A) (i : Z) (a : A) : outcome (list A) :=
  match norm_index (length l) i with
  | Some k => Done (<[k := a]> l)
  | None => Raise IndexError
  end.

(** [range(n)] *)
Definition range (n : nat) : list Z := map Z.of_nat (seq 0 n).

(** [all(f(x) for x in l)]: stops at the first false element, and an
    exception raised by an element that is reached escapes. *)
Fixpoint py_all {A} (f : A -> outcome bool) (l : list A) : outcome bool :=
  match l with
  | [] => Done true
  | x :: l' => b <- f x ;; if b then py_all f l' else Done false
  end.

(** [for x in l: if f(x): return True] followed by [rest]. *)
Fixpoint py_first {A} (f : A -> outcome bool) (l : list A)
    (rest : outcome bool) : outcome bool :=
  match l with
  | [] => rest
  | x :: l' => b <- f x ;; if b then Done true else py_first f l' rest
  end.

(** [[x for x in l if f(x)]] *)
Fixpoint py_filter {A} (f : A -> outcome bool) (l : list A) : outcome (list A) :=
  match l with
  | [] => Done []
  | x :: l' =>
      b <- f x ;;
      r <- py_filter f l' ;;
      Done (if b then x :: r else r)
  end.

(** ** class TicTacToe *)

Inductive player : Type := X | O.

(** A cell holds [' '], ['X'] or ['O']. *)
Inductive cell : Type :=
| Blank
| Mark (p : player).

Definition player_eqb (p q : player) : bool :=
  match p, q with
  | X, X | O, O => true
  | _, _ => false
  end.

Definition cell_eqb (c d : cell) : bool :=
  match c, d with
  | Blank, Blank => true
  | Mark p, Mark q => player_eqb p q
  | _, _ => false
  end.

Record TicTacToe : Type := mkTicTacToe {
  board : list (list cell);
  current_player : player
}.

(** [self.board[row][col]] *)
Definition cell_at (b : list (list cell)) (row col : Z) : outcome cell :=
  r <- py_get b row ;; py_get r col.

(** [__init__] *)
Definition new_game : TicTacToe :=
  mkTicTacToe (map (fun _ => map (fun _ => Blank) (range 3)) (range 3)) X.

Definition is_winner (self : TicTacToe) (p : player) : outcome bool :=
  py_first (fun row => py_all (fun c => Done (cell_eqb c (Mark p))) row)
    (board self)
  (py_first (fun col =>
      py_all (fun row => c <- cell_at (board self) row col ;;
                         Done (cell_eqb c (Mark p))) (range 3))
    (range 3)
  (d <- py_all (fun i => c <- cell_at (board self) i i ;;
                             Done (cell_eqb c (Mark p))) (range 3) ;;
   if d then Done true else
   a <- py_all (fun i => c <- cell_at (board self) i (2 - i) ;;
                             Done (cell_eqb c (Mark p))) (range 3) ;;
   if a then Done true else Done false)).

Definition is_board_full (self : TicTacToe) : bool :=
  forallb (fun c => negb (cell_eqb c Blank)) (concat (board self)).

Definition is_game_over (self : TicTacToe) : outcome bool :=
  wx <- is_winner self X ;;
  if wx then Done true else
  wo <- is_winner self O ;;
  if wo then Done true else
  Done (is_board_full self).

(** [make_move] returns its boolean together with the object after the call. *)
Definition make_move (self : TicTacToe) (row col : Z)
    : outcome (bool * TicTacToe) :=
  if (0 <=? row) && (row <? 3) && (0 <=? col) && (col <? 3) then
    c <- cell_at (board self) row col ;;
    if cell_eqb c Blank then
      r <- py_get (board self) row ;;
      r' <- py_set r col (Mark (current_player self)) ;;
      b' <- py_set (board self) row r' ;;
      Done (true,
            mkTicTacToe b'
              (if player_eqb (current_player self) X then O else X))
    else Done (false, self)
  else Done (false, self).

Definition get_empty_cells (self : TicTacToe) : outcome (list (Z * Z)) :=
  py_filter (fun '(i, j) => c <- cell_at (board self) i j ;;
                            Done (cell_eqb c Blank))
    (i ← range 3; j ← range 3; [(i, j)]).

(** ** The store *)

Definition loc : Type := nat.

(** [class TicTacToeAI]: the two node counters of [self]. *)
Record TicTacToeAI : Type := mkTicTacToeAI {
  nodes_visited_minimax : Z;
  nodes_visited_alpha_beta : Z
}.

(** The game objects allocated so far, addressed by position, and the AI
    object whose method is running. *)
Record world : Type := mkWorld {
  heap : list TicTacToe;
  ai : TicTacToeAI
}.

Definition M (A : Type) : Type := world -> outcome (A * world).

Definition ret {A} (a : A) : M A := fun w => Done (a, w).

Definition bind {A B} (m : M A) (k : A -> M B) : M B :=
  fun w => match m w with
           | Done (a, w') => k a w'
           | Raise e => Raise e
           | OutOfFuel => OutOfFuel
           end.

Notation "x <~ m ;; k" := (bind m (fun x => k))
  (at level 20, m at level 99, k at level 200, only parsing).
Notation "m ;;; k" := (bind m (fun _ => k))
  (at level 100, k at level 200, only parsing, right associativity).

Definition lift {A} (o : outcome A) : M A :=
  fun w => a <- o ;; Done (a, w).

Definition read (g : loc) : M TicTacToe :=
  fun w => match heap w !! g with
           | Some G => Done (G, w)
           | None => Raise NoSuchObject
           end.

Definition write (g : loc) (G : TicTacToe) : M unit :=
  fun w => Done (tt, mkWorld (<[g := G]> (heap w)) (ai w)).

(** [TicTacToe()] *)
Definition new_object : M loc :=
  fun w => Done (length (heap w), mkWorld (heap w ++ [new_game]) (ai w)).

(** [copy.deepcopy(game)]: a new object with the same contents. *)
Definition deepcopy (g : loc) : M loc :=
  G <~ read g ;;
  fun w => Done (length (heap w), mkWorld (heap w ++ [G]) (ai w)).

(** A method that only reads its object. *)
Definition query {A} (g : loc) (method : TicTacToe -> outcome A) : M A :=
  G <~ read g ;; lift (method G).

(** [game.make_move(row, col)] on the object at [g]. *)
Definition do_make_move (g : loc) (row col : Z) : M bool :=
  G <~ read g ;;
  r <~ lift (make_move G row col) ;;
  write g (snd r) ;;;
  ret (fst r).

(** [for x in l: s = body(x, s)] *)
Fixpoint for_in {A S} (l : list A) (body : A -> S -> M S) (s : S) : M S :=
  match l with
  | [] => ret s
  | x :: l' => s' <~ body x s ;; for_in l' body s'
  end.

(** The same loop where the body may [break]: it returns the new state and
    whether to leave the loop. *)
Fixpoint for_in_break {A S} (l : list A) (body : A -> S -> M (S * bool))
    (s : S) : M S :=
  match l with
  | [] => ret s
  | x :: l' =>
      r <~ body x s ;;
      if snd r then ret (fst r) else for_in_break l' body (fst r)
  end.

(** ** class TicTacToeAI *)

Definition count_minimax : M unit :=
  fun w => Done (tt, mkWorld (heap w)
    (mkTicTacToeAI (nodes_visited_minimax (ai w) + 1)
                   (nodes_visited_alpha_beta (ai w)))).

Definition count_alpha_beta : M unit :=
  fun w => Done (tt, mkWorld (heap w)
    (mkTicTacToeAI (nodes_visited_minimax (ai w))
                   (nodes_visited_alpha_beta (ai w) + 1))).

Definition evaluate (game : loc) : M Z :=
  wx <~ query game (fun G => is_winner G X) ;;
  if wx then ret 1 else
  wo <~ query game (fun G => is_winner G O) ;;
  if wo then ret (-1) else
  ret 0.

Fixpoint minimax (fuel : nat) (game : loc) (depth : Z) (is_maximizing : bool)
    : M ext :=
  match fuel with
  | 0%nat => fun _ => OutOfFuel
  | S fuel =>
      count_minimax ;;;
      over <~ query game is_game_over ;;
      if over then v <~ evaluate game ;; ret (Fin v) else
      if is_maximizing then
        cells <~ query game get_empty_cells ;;
        for_in cells (fun rc max_eval =>
            game_copy <~ deepcopy game ;;
            do_make_move game_copy (fst rc) (snd rc) ;;;
            eval <~ minimax fuel game_copy (depth + 1) false ;;
            ret (py_max max_eval eval))
          NegInf
      else
        cells <~ query game get_empty_cells ;;
        for_in cells (fun rc min_eval =>
            game_copy <~ deepcopy game ;;
            do_make_move game_copy (fst rc) (snd rc) ;;;
            eval <~ minimax fuel game_copy (depth + 1) true ;;
            ret (py_min min_eval eval))
          PosInf
  end.

(** The loop state of [alpha_beta] is the running extremum together with the
    bound the loop updates ([alpha] when maximizing, [beta] when minimizing). *)
Fixpoint alpha_beta (fuel : nat) (game : loc) (depth : Z) (alpha beta : ext)
    (is_maximizing : bool) : M ext :=
  match fuel with
  | 0%nat => fun _ => OutOfFuel
  | S fuel =>
      count_alpha_beta ;;;
      over <~ query game is_game_over ;;
      if over then v <~ evaluate game ;; ret (Fin v) else
      if is_maximizing then
        cells <~ query game get_empty_cells ;;
        st <~ for_in_break cells (fun rc st =>
            let max_eval := fst st in
            let alpha := snd st in
            game_copy <~ deepcopy game ;;
            do_make_move game_copy (fst rc) (snd rc) ;;;
            eval <~ alpha_beta fuel game_copy (depth + 1) alpha beta false ;;
            let max_eval := py_max max_eval eval in
            let alpha := py_max alpha eval in
            ret ((max_eval, alpha), ext_le beta alpha))
          (NegInf, alpha) ;;
        ret (fst st)
      else
        cells <~ query game get_empty_cells ;;
        st <~ for_in_break cells (fun rc st =>
            let min_eval := fst st in
            let beta := snd st in
            game_copy <~ deepcopy game ;;
            do_make_move game_copy (fst rc) (snd rc) ;;;
            eval <~ alpha_beta fuel game_copy (depth + 1) alpha beta true ;;
            let min_eval := py_min min_eval eval in
            let beta := py_min beta eval in
            ret ((min_eval, beta), ext_le beta alpha))
          (PosInf, beta) ;;
        ret (fst st)
  end.

(** The loop state of [get_best_move] is [(best_move, best_value)]. *)
Definition get_best_move (fuel : nat) (game : loc) (use_alpha_beta : bool)
    : M (option (Z * Z)) :=
  cells <~ query game get_empty_cells ;;
  st <~ for_in cells (fun rc st =>
      let best_move := fst st in
      let best_value := snd st in
      game_copy <~ deepcopy game ;;
      do_make_move game_copy (fst rc) (snd rc) ;;;
      move_value <~ (if use_alpha_beta
                     then alpha_beta fuel game_copy 0 NegInf PosInf true
                     else minimax fuel game_copy 0 true) ;;
      if ext_lt move_value best_value
      then ret (Some rc, move_value)
      else ret (best_move, best_value))
    (@None (Z * Z), PosInf) ;;
  ret (fst st).

(** ** compare_performance

    The node counts and the reduction percentage of the report; the clock
    readings and the printing are left out.  The percentage is kept as an
    exact fraction. *)
Record report : Type := mkReport {
  minimax_nodes : Z;
  alpha_beta_nodes : Z;
  node_reduction : Q
}.

Definition reset_minimax : M unit :=
  fun w => Done (tt, mkWorld (heap w)
    (mkTicTacToeAI 0 (nodes_visited_alpha_beta (ai w)))).

Definition reset_alpha_beta : M unit :=
  fun w => Done (tt, mkWorld (heap w)
    (mkTicTacToeAI (nodes_visited_minimax (ai w)) 0)).

Definition get_ai : M TicTacToeAI := fun w => Done (ai w, w).

(** [ai = TicTacToeAI()]: the function works on an AI object of its own. *)
Definition new_ai : M unit :=
  fun w => Done (tt, mkWorld (heap w) (mkTicTacToeAI 0 0)).

Definition py_div (a b : Z) : M Q :=
  if b =? 0 then fun _ => Raise ZeroDivisionError
  else ret (inject_Z a / inject_Z b)%Q.

Definition compare_performance (fuel : nat) : M report :=
  game <~ new_object ;;
  new_ai ;;;
  reset_minimax ;;;
  get_best_move fuel game false ;;;
  a <~ get_ai ;;
  let minimax_nodes := nodes_visited_minimax a in
  reset_alpha_beta ;;;
  get_best_move fuel game true ;;;
  a <~ get_ai ;;
  let alpha_beta_nodes := nodes_visited_alpha_beta a in
  q <~ py_div (minimax_nodes - alpha_beta_nodes) minimax_nodes ;;
  ret (mkReport minimax_nodes alpha_beta_nodes (q * inject_Z 100)%Q).

(** ** The searches as functions of the position

    What a search returns and how many calls it makes depend only on the
    contents of the game object it is given.  [mm], [ab] and [choose] compute
    both from the contents; the theorems below connect the store-passing
    definitions above to them. *)

Definition settled {A} (d : A) (o : outcome A) : A :=
  match o with
  | Done a => a
  | _ => d
  end.

Definition over (G : TicTacToe) : bool := settled true (is_game_over G).

Definition score (G : TicTacToe) : Z :=
  if settled false (is_winner G X) then 1
  else if settled false (is_winner G O) then -1
  else 0.

Definition moves (G : TicTacToe) : list (Z * Z) :=
  settled [] (get_empty_cells G).

Definition play (G : TicTacToe) (rc : Z * Z) : TicTacToe :=
  settled G (r <- make_move G (fst rc) (snd rc) ;; Done (snd r)).

(** Number of blank cells. *)
Definition blank_count (c : cell) : nat :=
  match c with
  | Blank => 1
  | Mark _ => 0
  end.

Definition blanks (G : TicTacToe) : nat :=
  sum_list (map blank_count (concat (board G))).

Definition pick (d : bool) : ext -> ext -> ext := if d then py_max else py_min.
Definition worst (d : bool) : ext := if d then NegInf else PosInf.

(** The loop of [minimax]: running extremum and number of calls. *)
Fixpoint scan (child : TicTacToe -> ext * Z) (d : bool) (G : TicTacToe)
    (cells : list (Z * Z)) (acc : ext) (n : Z) : ext * Z :=
  match cells with
  | [] => (acc, n)
  | rc :: cells' =>
      let r := child (play G rc) in
      scan child d G cells' (pick d acc (fst r)) (n + snd r)
  end.

Fixpoint mm (fuel : nat) (G : TicTacToe) (d : bool) : ext * Z :=
  match fuel with
  | 0%nat => (Fin 0, 0)
  | S k =>
      if over G then (Fin (score G), 1)
      else scan (fun G' => mm k G' (negb d)) d G (moves G) (worst d) 1
  end.

(** The loop of [alpha_beta]. *)
Fixpoint scan_cut (child : TicTacToe -> ext -> ext -> ext * Z) (d : bool)
    (G : TicTacToe) (cells : list (Z * Z)) (acc alpha beta : ext) (n : Z)
    : ext * Z :=
  match cells with
  | [] => (acc, n)
  | rc :: cells' =>
      let r := child (play G rc) alpha beta in
      let acc' := pick d acc (fst r) in
      let alpha' := if d then py_max alpha (fst r) else alpha in
      let beta' := if d then beta else py_min beta (fst r) in
      if ext_le beta' alpha' then (acc', n + snd r)
      else scan_cut child d G cells' acc' alpha' beta' (n + snd r)
  end.

Fixpoint ab (fuel : nat) (G : TicTacToe) (alpha beta : ext) (d : bool)
    : ext * Z :=
  match fuel with
  | 0%nat => (Fin 0, 0)
  | S k =>
      if over G then (Fin (score G), 1)
      else scan_cut (fun G' a b => ab k G' a b (negb d)) d G (moves G)
             (worst d) alpha beta 1
  end.

(** The loop of [get_best_move]. *)
Fixpoint choose (value : TicTacToe -> ext * Z) (G : TicTacToe)
    (cells : list (Z * Z)) (best_move : option (Z * Z)) (best_value : ext)
    (n : Z) : option (Z * Z) * Z :=
  match cells with
  | [] => (best_move, n)
  | rc :: cells' =>
      let r := value (play G rc) in
      if ext_lt (fst r) best_value
      then choose value G cells' (Some rc) (fst r) (n + snd r)
      else choose value G cells' best_move best_value (n + snd r)
  end.

Definition value_of (use_alpha_beta : bool) (fuel : nat) (G : TicTacToe)
    : ext * Z :=
  if use_alpha_beta then ab fuel G NegInf PosInf true else mm fuel G true.

(** ** Well-formed grids *)

(** Three rows of three cells: the shape [__init__] creates and [make_move]
    keeps. *)
Definition is_3x3 (b : list (list cell)) : bool :=
  (length b =? 3)%nat && forallb (fun r => (length r =? 3)%nat) b.

Definition well_formed (G : TicTacToe) : Prop := is_3x3 (board G) = true.

(** The nine coordinates in row-major order. *)
Definition all_cells : list (Z * Z) := i ← range 3; j ← range 3; [(i, j)].

(** Row-major order on coordinates. *)
Definition rm_lt (a b : Z * Z) : Prop :=
  fst a < fst b \/ (fst a = fst b /\ snd a < snd b).

(** ** Cells, marks and moves *)

(** Whether the cell at a coordinate is blank, [false] out of range. *)
Definition blank_at (G : TicTacToe) (rc : Z * Z) : bool :=
  settled false (c <- cell_at (board G) (fst rc) (snd rc) ;;
                 Done (cell_eqb c Blank)).

(** Number of cells holding the mark of [p]. *)
Definition mark_count (p : player) (G : TicTacToe) : nat :=
  sum_list (map (fun c => if cell_eqb c (Mark p) then 1%nat else 0%nat)
                (concat (board G))).

Definition other (p : player) : player :=
  match p with
  | X => O
  | O => X
  end.

Definition in_grid (row col : Z) : Prop := 0 <= row <= 2 /\ 0 <= col <= 2.

(** ** Boards reached by playing *)

(** [follows G G']: [G'] is [G] after some successful calls of [make_move]. *)
Inductive follows (G : TicTacToe) : TicTacToe -> Prop :=
| follows_here : follows G G
| follows_move (G1 G2 : TicTacToe) (row col : Z) :
    follows G G1 ->
    make_move G1 row col = Done (true, G2) ->
    follows G G2.

Definition reachable (G : TicTacToe) : Prop := follows new_game G.

Definition board_invariant (G : TicTacToe) : Prop :=
  well_formed G /\
  (mark_count X G = mark_count O G \/ mark_count X G = S (mark_count O G)) /\
  (current_player G = X <-> mark_count X G = mark_count O G).

(** ** Positions used as examples *)

(** The store of a program that has just run [game = TicTacToe()]. *)
Definition one_game (G : TicTacToe) : world :=
  mkWorld [G] (mkTicTacToeAI 0 0).

(** A position three moves from the end, X to move:
<<
     X | O | X
     O | O | X
       |   |
>>  *)
Definition late_game : TicTacToe :=
  mkTicTacToe [[Mark X; Mark O; Mark X];
               [Mark O; Mark O; Mark X];
               [Blank; Blank; Blank]] X.

(** The board after X at (1, 1) and O at (0, 0). *)
Definition two_moves : TicTacToe :=
  mkTicTacToe [[Mark O; Blank; Blank];
               [Blank; Mark X; Blank];
               [Blank; Blank; Blank]] X.

(** ** Relations between stores *)

(** [grows w w' dm da]: every object of [w] is in [w'] at the same place with
    the same contents (objects are only added), and the two counters went up
    by [dm] and [da]. *)
Definition grows (w w' : world) (dm da : Z) : Prop :=
  heap w `prefix_of` heap w' /\
  nodes_visited_minimax (ai w') = nodes_visited_minimax (ai w) + dm /\
  nodes_visited_alpha_beta (ai w') = nodes_visited_alpha_beta (ai w) + da.

(** Every object of [w] is still in [w'], with the contents it had. *)
Definition untouched (w w' : world) : Prop :=
  forall (l : loc) (obj : TicTacToe),
    heap w !! l = Some obj -> heap w' !! l = Some obj.

(** The world after [game_copy = copy.deepcopy(game)] and
    [game_copy.make_move(row, col)]. *)
Definition branch (w : world) (G : TicTacToe) (rc : Z * Z) : world :=
  mkWorld (heap w ++ [play G rc]) (ai w).

(** What the search [run] is known to do on the copy made for a successor of
    [G]: it returns the value [child] gives, adds [dm] and [da] of the calls
    [child] counts to the two counters, and only adds objects. *)
Definition call_ok (G : TicTacToe) (run : loc -> M ext)
    (child : TicTacToe -> ext * Z) (dm da : Z -> Z) : Prop :=
  forall rc w, rc ∈ moves G ->
    exists w', run (length (heap w)) (branch w G rc)
               = Done (fst (child (play G rc)), w') /\
               grows (branch w G rc) w'
                 (dm (snd (child (play G rc))))
                 (da (snd (child (play G rc)))).

(** The value [get_best_move] gives to a move: the result of the chosen
    search, called with [is_maximizing=True], on a deep copy of the game on
    which the move has been made. *)
Definition successor_value (use_alpha_beta : bool) (fuel : nat)
    (G : TicTacToe) (rc : Z * Z) : outcome ext :=
  r <- (game_copy <~ deepcopy 0%nat ;;
        do_make_move game_copy (fst rc) (snd rc) ;;;
        if use_alpha_beta
        then alpha_beta fuel game_copy 0 NegInf PosInf true
        else minimax fuel game_copy 0 true) (one_game G) ;;
  Done (fst r).

(** ** Size of the game tree *)

Definition total (l : list Z) : Z := fold_right Z.add 0 l.

(** Number of positions in the game tree below [G], [G] included; a
    position that is over has no successors. *)
Fixpoint tree_size (fuel : nat) (G : TicTacToe) : Z :=
  match fuel with
  | 0%nat => 0
  | S k =>
      if over G then 1
      else 1 + total (map (fun rc => tree_size k (play G rc)) (moves G))
  end.

(** ** Scores and windows *)

(** What a call of [alpha_beta] with window [(a, b)] that returned [r] says
    about the minimax value [v]: at or below [a] the result is an upper
    bound, at or above [b] a lower bound, and strictly inside it is exact. *)
Definition sound (a b r v : ext) : Prop :=
  (ext_le r a = true -> ext_le v r = true) /\
  (ext_le b r = true -> ext_le r v = true) /\
  (ext_lt a r = true -> ext_lt r b = true -> v = r).

(** Every score the searches handle is an infinity or one of -1, 0, 1. *)
Definition bounded (a : ext) : Prop :=
  match a with
  | Fin z => -1 <= z <= 1
  | _ => True
  end.

(** Bounded scores seen as integers, so that [lia] decides their order. *)
Definition enc (a : ext) : Z :=
  match a with
  | NegInf => -2
  | Fin z => z
  | PosInf => 2
  end.

Definition finite (v : ext) : Prop :=
  match v with
  | Fin _ => True
  | _ => False
  end.

(** The three game values. *)
Definition is_score (v : ext) : Prop :=
  v = Fin (-1) \/ v = Fin 0 \/ v = Fin 1.

(** ** Winning lines *)

(** The eight lines [is_winner] looks at: the rows, the columns and the two
    diagonals, as lists of coordinates. *)
Definition lines : list (list (Z * Z)) :=
  [[(0, 0); (0, 1); (0, 2)]; [(1, 0); (1, 1); (1, 2)];
   [(2, 0); (2, 1); (2, 2)];
   [(0, 0); (1, 0); (2, 0)]; [(0, 1); (1, 1); (2, 1)];
   [(0, 2); (1, 2); (2, 2)];
   [(0, 0); (1, 1); (2, 2)]; [(0, 2); (1, 1); (2, 0)]].

(** Every cell of the line holds the mark of [p]. *)
Definition filled (G : TicTacToe) (p : player) (l : list (Z * Z)) : Prop :=
  forall rc, rc ∈ l -> cell_at (board G) (fst rc) (snd rc) = Done (Mark p).

(** [is_winner] as a test over [lines]. *)
Definition has_line (G : TicTacToe) (p : player) : bool :=
  existsb (forallb (fun rc =>
      settled false (c <- cell_at (board G) (fst rc) (snd rc) ;;
                     Done (cell_eqb c (Mark p))))) lines.

(** ** Counting moves *)

(** [played n G]: [G] is a new game after [n] successful calls of
    [make_move]. *)
Inductive played : nat -> TicTacToe -> Prop :=
| played_none : played 0 new_game
| played_more (n : nat) (G G' : TicTacToe) (row col : Z) :
    played n G ->
    make_move G row col = Done (true, G') ->
    played (S n) G'.

(** ** The value of a successor *)

(** What [minimax], called with [depth] and flag [turn], returns on a deep
    copy of the game on which the move has been made: the [eval] of one
    iteration of the loop of [minimax]. *)
Definition child_value (fuel : nat) (G : TicTacToe) (rc : Z * Z)
    (depth : Z) (turn : bool) : outcome ext :=
  r <- (game_copy <~ deepcopy 0%nat ;;
        do_make_move game_copy (fst rc) (snd rc) ;;;
        minimax fuel game_copy depth turn) (one_game G) ;;
  Done (fst r).

(** ** More positions used as examples *)

(** X has completed the top row with the fifth move; O is to move:
<<
     X | X | X
     O | O |
       |   |
>>  *)
Definition x_has_won : TicTacToe :=
  mkTicTacToe [[Mark X; Mark X; Mark X];
               [Mark O; Mark O; Blank];
               [Blank; Blank; Blank]] O.

(** A position in which O, to move, completes the middle column at (2, 1):
<<
     X | O | X
       | O | X
       |   |
>>  *)
Definition o_to_win : TicTacToe :=
  mkTicTacToe [[Mark X; Mark O; Mark X];
               [Blank; Mark O; Mark X];
               [Blank; Blank; Blank]] O.

(** ** Standard output and [print_board]

    What the program writes to standard output is kept as one string.
    [print(s)] writes [s] and a newline; [input(prompt)] writes the prompt. *)

Definition newline : string := String "010"%char EmptyString.

Definition print (s : string) : string := s +:+ newline.

(** A cell is a string of one character. *)
Definition cell_char (c : cell) : ascii :=
  match c with
  | Blank => " "%char
  | Mark X => "X"%char
  | Mark O => "O"%char
  end.

Definition cell_text (c : cell) : string := String (cell_char c) EmptyString.

(** [sep.join(l)] *)
Fixpoint join (sep : string) (l : list string) : string :=
  match l with
  | [] => EmptyString
  | s :: l' =>
      match l' with
      | [] => s
      | _ => s +:+ sep +:+ join sep l'
      end
  end.

Definition print_board (self : TicTacToe) : string :=
  fold_right (fun row rest =>
      print (join "|" (map cell_text row)) +:+ print "-----" +:+ rest)
    EmptyString (board self).

(** ** The interactive game (the [__main__] block)

    [inputs] are the integers that the successive calls of
    [int(input(...))] return.  When they run out the program is waiting in
    [input]; the loop then ends with [false] and the text written so far.
    [steps] bounds the number of iterations of the [while] loop. *)
Fixpoint game_loop (steps fuel : nat) (game : loc) (inputs : list Z)
    (out : string) : M (string * bool) :=
  match steps with
  | 0%nat => fun _ => OutOfFuel
  | S steps =>
      over <~ query game is_game_over ;;
      if over then ret (out, true) else
      shown <~ query game (fun G => Done (print_board G)) ;;
      let out := out +:+ shown in
      G <~ read game ;;
      if player_eqb (current_player G) X then
        let out := out +:+ "Enter row (0-2): " in
        match inputs with
        | [] => ret (out, false)
        | row :: inputs =>
            let out := out +:+ "Enter col (0-2): " in
            match inputs with
            | [] => ret (out, false)
            | col :: inputs =>
                ok <~ do_make_move game row col ;;
                if ok then game_loop steps fuel game inputs out
                else game_loop steps fuel game inputs
                       (out +:+ print "Invalid move, try again.")
            end
        end
      else
        move <~ get_best_move fuel game false ;;
        match move with
        | Some mv =>
            do_make_move game (fst mv) (snd mv) ;;;
            game_loop steps fuel game inputs
              (out +:+ print ("AI moves to position (" +:+ pretty (fst mv)
                              +:+ ", " +:+ pretty (snd mv) +:+ ")"))
        | None => game_loop steps fuel game inputs out
        end
  end.

(** The three closing messages. *)
Definition result_message (self : TicTacToe) : outcome string :=
  wx <- is_winner self X ;;
  if wx then Done "Player X wins!"%string else
  wo <- is_winner self O ;;
  if wo then Done "AI (O) wins!"%string else
  Done "It's a draw!"%string.

(** The program: the text written before [compare_performance] is called,
    and the report of [compare_performance] when the game was played to its
    end ([None] when the input ran out first). *)
Definition main (steps fuel : nat) (inputs : list Z)
    : M (string * option report) :=
  game <~ new_object ;;
  new_ai ;;;
  let out :=
    print (newline
           +:+ "Starting Tic-Tac-Toe game (Player vs AI with Alpha-Beta):") in
  r <~ game_loop steps fuel game inputs out ;;
  if snd r then
    shown <~ query game (fun G => Done (print_board G)) ;;
    message <~ query game result_message ;;
    rep <~ compare_performance fuel ;;
    ret (fst r +:+ shown +:+ print message, Some rep)
  else ret (fst r, None).

(** ** Every line of play of the human

    [ai_reply G] is the move [get_best_move] selects on [G].
    [x_cannot_win n G] follows, from a board [G] where X is to move, every
    legal move of X and the reply to it, for at most [n] moves of X, and
    checks that X has no line whenever the game is over. *)
Definition ai_reply (G : TicTacToe) : option (Z * Z) :=
  fst (choose (value_of true 9) G (moves G) None PosInf 0).

Fixpoint x_cannot_win (n : nat) (G : TicTacToe) : bool :=
  if over G then negb (has_line G X) else
  match n with
  | 0%nat => false
  | S n =>
      forallb (fun rc =>
        let G1 := play G rc in
        if over G1 then negb (has_line G1 X) else
        match ai_reply G1 with
        | Some m => x_cannot_win n (play G1 m)
        | None => false
        end) (moves G)
  end.

(** What the loop keeps true of the game object. *)
Definition guarded (G : TicTacToe) : Prop :=
  well_formed G /\
  if over G then has_line G X = false
  else match current_player G with
       | X => exists n, x_cannot_win n G = true
       | O => exists n m, ai_reply G = Some m /\
                          x_cannot_win n (play G m) = true
       end.

(** * Facts about the board class *)

Lemma settled_done {A} (d : A) (o : outcome A) :
  (exists a, o = Done a) -> o = Done (settled d o).
Proof. intros [a ->]; reflexivity. Qed.

Lemma is_3x3_grid (b : list (list cell)) :
  is_3x3 b = true ->
  exists a0 a1 a2 b0 b1 b2 c0 c1 c2,
    b = [[a0; a1; a2]; [b0; b1; b2]; [c0; c1; c2]].
Proof.
  unfold is_3x3.
  destruct b as [|r0 [|r1 [|r2 [|r3 b]]]]; simpl; try discriminate.
  destruct r0 as [|? [|? [|? [|? ?]]]]; simpl; try discriminate.
  destruct r1 as [|? [|? [|? [|? ?]]]]; simpl; try discriminate.
  destruct r2 as [|? [|? [|? [|? ?]]]]; simpl; try discriminate.
  intros _; repeat eexists.
Qed.

Ltac grid G H :=
  let b := fresh "b" in
  let p := fresh "turn" in
  destruct G as [b p]; unfold well_formed in H; simpl in H;
  apply is_3x3_grid in H;
  destruct H as (?a & ?a & ?a & ?b & ?b & ?b & ?c & ?c & ?c & ->).

Ltac split_ifs :=
  repeat match goal with
         | |- context [if ?c then _ else _] => destruct c eqn:?
         end.

Lemma is_winner_done (G : TicTacToe) (p : player) :
  well_formed G -> is_winner G p = Done (settled false (is_winner G p)).
Proof.
  intros H; apply settled_done; grid G H.
  cbv -[cell_eqb]. split_ifs; eauto.
Qed.

Lemma is_game_over_done (G : TicTacToe) :
  well_formed G -> is_game_over G = Done (over G).
Proof.
  intros H; apply settled_done. unfold is_game_over.
  rewrite (is_winner_done G X H), (is_winner_done G O H); simpl.
  split_ifs; eauto.
Qed.

Lemma py_filter_done {A} (f : A -> outcome bool) (p : A -> bool) (l : list A) :
  (forall x, x ∈ l -> f x = Done (p x)) ->
  py_filter f l = Done (List.filter p l).
Proof.
  induction l as [|x l IH]; intros Hf; simpl; [reflexivity|].
  rewrite (Hf x) by constructor. simpl.
  rewrite IH by (intros y Hy; apply Hf; now constructor). reflexivity.
Qed.

Lemma in_all_cells (rc : Z * Z) :
  rc ∈ all_cells ->
  rc = (0, 0) \/ rc = (0, 1) \/ rc = (0, 2) \/
  rc = (1, 0) \/ rc = (1, 1) \/ rc = (1, 2) \/
  rc = (2, 0) \/ rc = (2, 1) \/ rc = (2, 2).
Proof.
  intros H. apply list_elem_of_In in H. cbv in H.
  repeat (destruct H as [<-|H]; [tauto|]). destruct H.
Qed.

Lemma get_empty_cells_done (G : TicTacToe) :
  well_formed G ->
  get_empty_cells G = Done (List.filter (blank_at G) all_cells).
Proof.
  intros H. unfold get_empty_cells. apply py_filter_done.
  intros rc Hrc. apply in_all_cells in Hrc. grid G H.
  unfold blank_at.
  destruct Hrc as [->|[->|[->|[->|[->|[->|[->|[->| ->]]]]]]]]; reflexivity.
Qed.

Lemma moves_filter (G : TicTacToe) :
  well_formed G -> moves G = List.filter (blank_at G) all_cells.
Proof. intros H. unfold moves. now rewrite get_empty_cells_done. Qed.

Lemma in_moves (G : TicTacToe) (rc : Z * Z) :
  well_formed G -> (rc ∈ moves G <-> rc ∈ all_cells /\ blank_at G rc = true).
Proof.
  intros H. rewrite moves_filter by assumption.
  rewrite !list_elem_of_In, filter_In. reflexivity.
Qed.

Lemma blank_at_grid (G : TicTacToe) (rc : Z * Z) :
  well_formed G -> blank_at G rc = true ->
  cell_at (board G) (fst rc) (snd rc) = Done Blank.
Proof.
  unfold blank_at. intros _.
  destruct (cell_at (board G) (fst rc) (snd rc)) as [[|p]| |]; simpl;
    intros; try discriminate; reflexivity.
Qed.

Lemma over_not_full (G : TicTacToe) :
  well_formed G -> over G = false -> is_board_full G = false.
Proof.
  intros H Hov. pose proof (is_game_over_done G H) as E.
  unfold is_game_over in E.
  rewrite (is_winner_done G X H), (is_winner_done G O H) in E; simpl in E.
  rewrite Hov in E.
  destruct (settled false (is_winner G X)); [discriminate|].
  destruct (settled false (is_winner G O)); [discriminate|].
  now injection E as ->.
Qed.

Lemma moves_nonempty (G : TicTacToe) :
  well_formed G -> over G = false -> moves G <> [].
Proof.
  intros H Hov. pose proof (over_not_full G H Hov) as Hf.
  rewrite (moves_filter G H). grid G H.
  destruct a as [|?]; [cbv; discriminate|].
  destruct a0 as [|?]; [cbv; discriminate|].
  destruct a1 as [|?]; [cbv; discriminate|].
  destruct b0 as [|?]; [cbv; discriminate|].
  destruct b1 as [|?]; [cbv; discriminate|].
  destruct b2 as [|?]; [cbv; discriminate|].
  destruct c as [|?]; [cbv; discriminate|].
  destruct c0 as [|?]; [cbv; discriminate|].
  destruct c1 as [|?]; [cbv; discriminate|].
  cbv in Hf. discriminate.
Qed.

Lemma blanks_bound (G : TicTacToe) : well_formed G -> (blanks G <= 9)%nat.
Proof.
  intros H. grid G H. unfold blanks; simpl.
  repeat match goal with x : cell |- _ => destruct x; simpl end; lia.
Qed.

Lemma full_no_blanks (G : TicTacToe) :
  well_formed G -> blanks G = 0%nat -> is_board_full G = true.
Proof.
  intros H. grid G H. unfold blanks, is_board_full; simpl.
  repeat match goal with x : cell |- _ => destruct x; simpl; try lia end.
Qed.

(** A move taken from [get_empty_cells] is accepted by [make_move]; it keeps
    the shape of the grid, fills one blank and passes the turn. *)
Lemma play_spec (G : TicTacToe) (rc : Z * Z) :
  well_formed G -> rc ∈ moves G ->
  make_move G (fst rc) (snd rc) = Done (true, play G rc) /\
  well_formed (play G rc) /\
  (blanks (play G rc) + 1 = blanks G)%nat /\
  current_player (play G rc) =
    (if player_eqb (current_player G) X then O else X).
Proof.
  intros H Hin. apply (in_moves G rc H) in Hin as [Hrc Hb].
  apply (blank_at_grid G rc H) in Hb. apply in_all_cells in Hrc.
  grid G H.
  destruct Hrc as [->|[->|[->|[->|[->|[->|[->|[->| ->]]]]]]]];
    cbv in Hb; injection Hb as ->;
    (split; [reflexivity|split; [reflexivity|split; [|reflexivity]]]);
    unfold blanks; simpl; lia.
Qed.

(** * Facts about the store *)

Lemma grows_refl (w : world) : grows w w 0 0.
Proof. unfold grows. split; [reflexivity|lia]. Qed.

Lemma grows_trans (w1 w2 w3 : world) (a b c d : Z) :
  grows w1 w2 a b -> grows w2 w3 c d -> grows w1 w3 (a + c) (b + d).
Proof.
  intros (P1 & M1 & A1) (P2 & M2 & A2). unfold grows.
  split; [etrans; eassumption|lia].
Qed.

Lemma grows_lookup (w w' : world) (dm da : Z) (g : loc) (G : TicTacToe) :
  grows w w' dm da -> heap w !! g = Some G -> heap w' !! g = Some G.
Proof. intros (P & _) H. eapply prefix_lookup_Some; eassumption. Qed.

Lemma grows_eq (w w' : world) (a b c d : Z) :
  grows w w' a b -> a = c -> b = d -> grows w w' c d.
Proof. now intros H -> ->. Qed.

Lemma bind_done {A B} (m : M A) (k : A -> M B) (w w' : world) (a : A) :
  m w = Done (a, w') -> bind m k w = k a w'.
Proof. unfold bind. now intros ->. Qed.

Lemma query_done {A} (g : loc) (f : TicTacToe -> outcome A) (w : world)
    (G : TicTacToe) (a : A) :
  heap w !! g = Some G -> f G = Done a -> query g f w = Done (a, w).
Proof.
  intros Hg Hf. unfold query, bind, read, lift. now rewrite Hg, Hf.
Qed.

Lemma branch_grows (w : world) (G : TicTacToe) (rc : Z * Z) :
  grows w (branch w G rc) 0 0.
Proof.
  unfold grows, branch; simpl. split; [apply prefix_app_r; reflexivity|lia].
Qed.

Lemma branch_lookup (w : world) (G : TicTacToe) (rc : Z * Z) :
  heap (branch w G rc) !! length (heap w) = Some (play G rc).
Proof. unfold branch; simpl. now rewrite list_lookup_middle. Qed.

Lemma branch_run {A} (k : loc -> M A) (G : TicTacToe) (g : loc)
    (rc : Z * Z) (w : world) :
  heap w !! g = Some G -> well_formed G -> rc ∈ moves G ->
  (game_copy <~ deepcopy g ;;
   do_make_move game_copy (fst rc) (snd rc) ;;;
   k game_copy) w
  = k (length (heap w)) (branch w G rc).
Proof.
  intros Hg Hwf Hrc. destruct (play_spec G rc Hwf Hrc) as (Hmv & _).
  unfold deepcopy, do_make_move, bind, read, lift, write, ret; simpl.
  rewrite Hg; simpl. rewrite list_lookup_middle by reflexivity.
  rewrite Hmv; simpl. unfold branch.
  replace (<[length (heap w) := play G rc]> (heap w ++ [G]))
    with (heap w ++ [play G rc]); [reflexivity|].
  rewrite insert_app_r_alt by lia. now rewrite Nat.sub_diag.
Qed.

Lemma evaluate_done (g : loc) (w : world) (G : TicTacToe) :
  heap w !! g = Some G -> well_formed G ->
  evaluate g w = Done (score G, w).
Proof.
  intros Hg Hwf. unfold evaluate, score.
  rewrite (bind_done _ _ w w _
             (query_done g _ w G _ Hg (is_winner_done G X Hwf))).
  destruct (settled false (is_winner G X)); [reflexivity|].
  rewrite (bind_done _ _ w w _
             (query_done g _ w G _ Hg (is_winner_done G O Hwf))).
  destruct (settled false (is_winner G O)); reflexivity.
Qed.

(** * The store-passing searches compute [mm], [ab] and [choose] *)

Lemma minimax_loop (rec : loc -> Z -> bool -> M ext)
    (child : TicTacToe -> ext * Z) (G : TicTacToe) (g : loc) (depth : Z)
    (d : bool) :
  well_formed G ->
  call_ok G (fun l => rec l (depth + 1) (negb d)) child (fun k => k)
    (fun _ => 0) ->
  forall cells acc n w,
    (forall rc, rc ∈ cells -> rc ∈ moves G) ->
    heap w !! g = Some G ->
    exists w',
      for_in cells (fun rc acc =>
          game_copy <~ deepcopy g ;;
          do_make_move game_copy (fst rc) (snd rc) ;;;
          eval <~ rec game_copy (depth + 1) (negb d) ;;
          ret (pick d acc eval)) acc w
      = Done (fst (scan child d G cells acc n), w') /\
      grows w w' (snd (scan child d G cells acc n) - n) 0.
Proof.
  intros Hwf Hrec. induction cells as [|rc cells IH]; intros acc n w Hsub Hg.
  - exists w. simpl. split; [reflexivity|].
    eapply grows_eq; [apply grows_refl|lia|reflexivity].
  - assert (Hrc : rc ∈ moves G) by (apply Hsub; constructor).
    destruct (Hrec rc w Hrc) as (w1 & Hrun & Hgr).
    pose proof (branch_run
      (fun gc => eval <~ rec gc (depth + 1) (negb d) ;; ret (pick d acc eval))
      G g rc w Hg Hwf Hrc) as Hb.
    cbv beta in Hb. rewrite (bind_done _ _ _ _ _ Hrun) in Hb.
    destruct (IH (pick d acc (fst (child (play G rc))))
                 (n + snd (child (play G rc))) w1) as (w' & Hloop & Hgr').
    + intros rc' Hin. apply Hsub. now constructor.
    + eapply grows_lookup; [exact Hgr|].
      eapply grows_lookup; [apply branch_grows|exact Hg].
    + exists w'. split.
      * simpl for_in. erewrite bind_done by exact Hb. exact Hloop.
      * simpl scan.
        eapply grows_eq;
          [exact (grows_trans _ _ _ _ _ _ _
                    (grows_trans _ _ _ _ _ _ _ (branch_grows w G rc) Hgr) Hgr')
          |lia|reflexivity].
Qed.

Lemma minimax_refines :
  forall (fuel : nat) (G : TicTacToe) (g : loc) (depth : Z) (d : bool)
         (w : world),
    heap w !! g = Some G -> well_formed G -> (blanks G < fuel)%nat ->
    exists w', minimax fuel g depth d w = Done (fst (mm fuel G d), w') /\
               grows w w' (snd (mm fuel G d)) 0.
Proof.
  induction fuel as [|fuel IH]; intros G g depth d w Hg Hwf Hfuel; [lia|].
  set (w1 := mkWorld (heap w)
               (mkTicTacToeAI (nodes_visited_minimax (ai w) + 1)
                              (nodes_visited_alpha_beta (ai w)))).
  assert (H1 : grows w w1 1 0) by (split; [reflexivity|simpl; lia]).
  assert (Hg1 : heap w1 !! g = Some G) by exact Hg.
  cbn [minimax mm].
  rewrite (bind_done count_minimax _ w w1 tt eq_refl).
  rewrite (bind_done _ _ _ _ _
             (query_done g is_game_over w1 G _ Hg1 (is_game_over_done G Hwf))).
  destruct (over G) eqn:Hov.
  - rewrite (bind_done _ _ _ _ _ (evaluate_done g w1 G Hg1 Hwf)).
    exists w1. split; [reflexivity|exact H1].
  - assert (Hcall : forall d', call_ok G (fun l => minimax fuel l (depth + 1) d')
                      (fun G' => mm fuel G' d') (fun k => k) (fun _ => 0)).
    { intros d' rc w2 Hrc.
      destruct (play_spec G rc Hwf Hrc) as (_ & Hwf' & Hbl & _).
      apply IH; [apply branch_lookup|exact Hwf'|lia]. }
    assert (Hcells := query_done g get_empty_cells w1 G _ Hg1
                        (get_empty_cells_done G Hwf)).
    rewrite <- (moves_filter G Hwf) in Hcells.
    destruct (minimax_loop (minimax fuel) (fun G' => mm fuel G' (negb d))
                G g depth d Hwf (Hcall (negb d)) (moves G) (worst d) 1 w1
                (fun _ H => H) Hg1) as (w' & Hloop & Hgr).
    exists w'. split.
    + destruct d; rewrite (bind_done _ _ _ _ _ Hcells); exact Hloop.
    + eapply grows_eq; [exact (grows_trans _ _ _ _ _ _ _ H1 Hgr)|lia|lia].
Qed.

Ltac loop_step Hsub Hg Hgr :=
  first [ intros ? ?; apply Hsub; now constructor
        | eapply grows_lookup; [exact Hgr|];
          eapply grows_lookup; [apply branch_grows|exact Hg] ].

Lemma alpha_beta_loop_max (rec : loc -> Z -> ext -> ext -> bool -> M ext)
    (child : TicTacToe -> ext -> ext -> ext * Z) (G : TicTacToe) (g : loc)
    (depth : Z) (beta : ext) :
  well_formed G ->
  (forall a, call_ok G (fun l => rec l (depth + 1) a beta false)
               (fun G' => child G' a beta) (fun _ => 0) (fun k => k)) ->
  forall cells acc alpha n w,
    (forall rc, rc ∈ cells -> rc ∈ moves G) ->
    heap w !! g = Some G ->
    exists w' st,
      for_in_break cells (fun rc st =>
          let max_eval := fst st in
          let alpha := snd st in
          game_copy <~ deepcopy g ;;
          do_make_move game_copy (fst rc) (snd rc) ;;;
          eval <~ rec game_copy (depth + 1) alpha beta false ;;
          let max_eval := py_max max_eval eval in
          let alpha := py_max alpha eval in
          ret ((max_eval, alpha), ext_le beta alpha)) (acc, alpha) w
      = Done (st, w') /\
      fst st = fst (scan_cut child true G cells acc alpha beta n) /\
      grows w w' 0 (snd (scan_cut child true G cells acc alpha beta n) - n).
Proof.
  intros Hwf Hrec.
  induction cells as [|rc cells IH]; intros acc alpha n w Hsub Hg.
  - exists w, (acc, alpha). simpl. split; [reflexivity|split; [reflexivity|]].
    eapply grows_eq; [apply grows_refl|reflexivity|lia].
  - assert (Hrc : rc ∈ moves G) by (apply Hsub; constructor).
    destruct (Hrec alpha rc w Hrc) as (w1 & Hrun & Hgr).
    pose proof (branch_run
      (fun gc => eval <~ rec gc (depth + 1) alpha beta false ;;
                 ret ((py_max acc eval, py_max alpha eval),
                      ext_le beta (py_max alpha eval)))
      G g rc w Hg Hwf Hrc) as Hb.
    cbv beta in Hb. rewrite (bind_done _ _ _ _ _ Hrun) in Hb.
    pose proof (grows_trans _ _ _ _ _ _ _ (branch_grows w G rc) Hgr) as Hgr1.
    simpl for_in_break. simpl scan_cut.
    erewrite bind_done by exact Hb. unfold ret at 1. cbn [fst snd].
    destruct (ext_le beta (py_max alpha (fst (child (play G rc) alpha beta)))).
    + eexists w1, _. split; [reflexivity|split; [reflexivity|]].
      eapply grows_eq; [exact Hgr1|reflexivity|simpl; lia].
    + destruct (IH (py_max acc (fst (child (play G rc) alpha beta)))
                   (py_max alpha (fst (child (play G rc) alpha beta)))
                   (n + snd (child (play G rc) alpha beta)) w1)
        as (w' & st & Hloop & Hst & Hgr'); [loop_step Hsub Hg Hgr..|].
      exists w', st. split; [exact Hloop|split; [exact Hst|]].
      eapply grows_eq; [exact (grows_trans _ _ _ _ _ _ _ Hgr1 Hgr')|lia|lia].
Qed.

Lemma alpha_beta_loop_min (rec : loc -> Z -> ext -> ext -> bool -> M ext)
    (child : TicTacToe -> ext -> ext -> ext * Z) (G : TicTacToe) (g : loc)
    (depth : Z) (alpha : ext) :
  well_formed G ->
  (forall b, call_ok G (fun l => rec l (depth + 1) alpha b true)
               (fun G' => child G' alpha b) (fun _ => 0) (fun k => k)) ->
  forall cells acc beta n w,
    (forall rc, rc ∈ cells -> rc ∈ moves G) ->
    heap w !! g = Some G ->
    exists w' st,
      for_in_break cells (fun rc st =>
          let min_eval := fst st in
          let beta := snd st in
          game_copy <~ deepcopy g ;;
          do_make_move game_copy (fst rc) (snd rc) ;;;
          eval <~ rec game_copy (depth + 1) alpha beta true ;;
          let min_eval := py_min min_eval eval in
          let beta := py_min beta eval in
          ret ((min_eval, beta), ext_le beta alpha)) (acc, beta) w
      = Done (st, w') /\
      fst st = fst (scan_cut child false G cells acc alpha beta n) /\
      grows w w' 0 (snd (scan_cut child false G cells acc alpha beta n) - n).
Proof.
  intros Hwf Hrec.
  induction cells as [|rc cells IH]; intros acc beta n w Hsub Hg.
  - exists w, (acc, beta). simpl. split; [reflexivity|split; [reflexivity|]].
    eapply grows_eq; [apply grows_refl|reflexivity|lia].
  - assert (Hrc : rc ∈ moves G) by (apply Hsub; constructor).
    destruct (Hrec beta rc w Hrc) as (w1 & Hrun & Hgr).
    pose proof (branch_run
      (fun gc => eval <~ rec gc (depth + 1) alpha beta true ;;
                 ret ((py_min acc eval, py_min beta eval),
                      ext_le (py_min beta eval) alpha))
      G g rc w Hg Hwf Hrc) as Hb.
    cbv beta in Hb. rewrite (bind_done _ _ _ _ _ Hrun) in Hb.
    pose proof (grows_trans _ _ _ _ _ _ _ (branch_grows w G rc) Hgr) as Hgr1.
    simpl for_in_break. simpl scan_cut.
    erewrite bind_done by exact Hb. unfold ret at 1. cbn [fst snd].
    destruct (ext_le (py_min beta (fst (child (play G rc) alpha beta))) alpha).
    + eexists w1, _. split; [reflexivity|split; [reflexivity|]].
      eapply grows_eq; [exact Hgr1|reflexivity|simpl; lia].
    + destruct (IH (py_min acc (fst (child (play G rc) alpha beta)))
                   (py_min beta (fst (child (play G rc) alpha beta)))
                   (n + snd (child (play G rc) alpha beta)) w1)
        as (w' & st & Hloop & Hst & Hgr'); [loop_step Hsub Hg Hgr..|].
      exists w', st. split; [exact Hloop|split; [exact Hst|]].
      eapply grows_eq; [exact (grows_trans _ _ _ _ _ _ _ Hgr1 Hgr')|lia|lia].
Qed.

Lemma alpha_beta_refines :
  forall (fuel : nat) (G : TicTacToe) (g : loc) (depth : Z)
         (alpha beta : ext) (d : bool) (w : world),
    heap w !! g = Some G -> well_formed G -> (blanks G < fuel)%nat ->
    exists w', alpha_beta fuel g depth alpha beta d w
               = Done (fst (ab fuel G alpha beta d), w') /\
               grows w w' 0 (snd (ab fuel G alpha beta d)).
Proof.
  induction fuel as [|fuel IH]; intros G g depth alpha beta d w Hg Hwf Hfuel;
    [lia|].
  set (w1 := mkWorld (heap w)
               (mkTicTacToeAI (nodes_visited_minimax (ai w))
                              (nodes_visited_alpha_beta (ai w) + 1))).
  assert (H1 : grows w w1 0 1) by (split; [reflexivity|simpl; lia]).
  assert (Hg1 : heap w1 !! g = Some G) by exact Hg.
  cbn [alpha_beta ab].
  rewrite (bind_done count_alpha_beta _ w w1 tt eq_refl).
  rewrite (bind_done _ _ _ _ _
             (query_done g is_game_over w1 G _ Hg1 (is_game_over_done G Hwf))).
  destruct (over G) eqn:Hov.
  - rewrite (bind_done _ _ _ _ _ (evaluate_done g w1 G Hg1 Hwf)).
    exists w1. split; [reflexivity|exact H1].
  - assert (Hcall : forall d' a b,
              call_ok G (fun l => alpha_beta fuel l (depth + 1) a b d')
                (fun G' => ab fuel G' a b d') (fun _ => 0) (fun k => k)).
    { intros d' a b rc w2 Hrc.
      destruct (play_spec G rc Hwf Hrc) as (_ & Hwf' & Hbl & _).
      apply IH; [apply branch_lookup|exact Hwf'|lia]. }
    assert (Hcells := query_done g get_empty_cells w1 G _ Hg1
                        (get_empty_cells_done G Hwf)).
    rewrite <- (moves_filter G Hwf) in Hcells.
    destruct d; rewrite (bind_done _ _ _ _ _ Hcells).
    + destruct (alpha_beta_loop_max (alpha_beta fuel)
                  (fun G' a b => ab fuel G' a b false) G g depth beta Hwf
                  (fun a => Hcall false a beta) (moves G) NegInf alpha 1 w1
                  (fun _ H => H) Hg1) as (w' & st & Hloop & Hst & Hgr).
      exists w'. split.
      * erewrite bind_done by exact Hloop. unfold ret. now rewrite Hst.
      * eapply grows_eq; [exact (grows_trans _ _ _ _ _ _ _ H1 Hgr)|lia|].
        cbn [negb worst]. lia.
    + destruct (alpha_beta_loop_min (alpha_beta fuel)
                  (fun G' a b => ab fuel G' a b true) G g depth alpha Hwf
                  (fun b => Hcall true alpha b) (moves G) PosInf beta 1 w1
                  (fun _ H => H) Hg1) as (w' & st & Hloop & Hst & Hgr).
      exists w'. split.
      * erewrite bind_done by exact Hloop. unfold ret. now rewrite Hst.
      * eapply grows_eq; [exact (grows_trans _ _ _ _ _ _ _ H1 Hgr)|lia|].
        cbn [negb worst]. lia.
Qed.

Lemma value_of_call (use_alpha_beta : bool) (fuel : nat) (G : TicTacToe) :
  well_formed G -> (blanks G <= fuel)%nat ->
  call_ok G
    (fun l => if use_alpha_beta
              then alpha_beta fuel l 0 NegInf PosInf true
              else minimax fuel l 0 true)
    (value_of use_alpha_beta fuel)
    (fun k => if use_alpha_beta then 0 else k)
    (fun k => if use_alpha_beta then k else 0).
Proof.
  intros Hwf Hfuel rc w Hrc.
  destruct (play_spec G rc Hwf Hrc) as (_ & Hwf' & Hbl & _).
  unfold value_of. destruct use_alpha_beta.
  - apply alpha_beta_refines; [apply branch_lookup|exact Hwf'|lia].
  - apply minimax_refines; [apply branch_lookup|exact Hwf'|lia].
Qed.

Lemma get_best_move_loop (use_alpha_beta : bool) (fuel : nat)
    (G : TicTacToe) (g : loc) :
  well_formed G -> (blanks G <= fuel)%nat ->
  forall cells best_move best_value n w,
    (forall rc, rc ∈ cells -> rc ∈ moves G) ->
    heap w !! g = Some G ->
    exists w' st,
      for_in cells (fun rc st =>
          let best_move := fst st in
          let best_value := snd st in
          game_copy <~ deepcopy g ;;
          do_make_move game_copy (fst rc) (snd rc) ;;;
          move_value <~ (if use_alpha_beta
                         then alpha_beta fuel game_copy 0 NegInf PosInf true
                         else minimax fuel game_copy 0 true) ;;
          if ext_lt move_value best_value
          then ret (Some rc, move_value)
          else ret (best_move, best_value)) (best_move, best_value) w
      = Done (st, w') /\
      fst st = fst (choose (value_of use_alpha_beta fuel) G cells
                      best_move best_value n) /\
      let k := snd (choose (value_of use_alpha_beta fuel) G cells
                      best_move best_value n) - n in
      grows w w' (if use_alpha_beta then 0 else k)
                 (if use_alpha_beta then k else 0).
Proof.
  intros Hwf Hfuel.
  induction cells as [|rc cells IH]; intros bm bv n w Hsub Hg.
  - exists w, (bm, bv). simpl. split; [reflexivity|split; [reflexivity|]].
    eapply grows_eq; [apply grows_refl|..]; destruct use_alpha_beta; lia.
  - assert (Hrc : rc ∈ moves G) by (apply Hsub; constructor).
    destruct (value_of_call use_alpha_beta fuel G Hwf Hfuel rc w Hrc)
      as (w1 & Hrun & Hgr).
    pose proof (branch_run
      (fun gc => move_value <~ (if use_alpha_beta
                         then alpha_beta fuel gc 0 NegInf PosInf true
                         else minimax fuel gc 0 true) ;;
                 if ext_lt move_value bv
                 then ret (Some rc, move_value)
                 else ret (bm, bv))
      G g rc w Hg Hwf Hrc) as Hb.
    cbv beta in Hb. rewrite (bind_done _ _ _ _ _ Hrun) in Hb.
    pose proof (grows_trans _ _ _ _ _ _ _ (branch_grows w G rc) Hgr) as Hgr1.
    simpl for_in. simpl choose.
    set (r := value_of use_alpha_beta fuel (play G rc)) in *.
    destruct (ext_lt (fst r) bv).
    + destruct (IH (Some rc) (fst r) (n + snd r) w1)
        as (w' & st & Hloop & Hst & Hgr'); [loop_step Hsub Hg Hgr..|].
      exists w', st. split; [|split; [exact Hst|]].
      * erewrite bind_done by exact Hb. exact Hloop.
      * eapply grows_eq; [exact (grows_trans _ _ _ _ _ _ _ Hgr1 Hgr')|..];
          destruct use_alpha_beta; lia.
    + destruct (IH bm bv (n + snd r) w1)
        as (w' & st & Hloop & Hst & Hgr'); [loop_step Hsub Hg Hgr..|].
      exists w', st. split; [|split; [exact Hst|]].
      * erewrite bind_done by exact Hb. exact Hloop.
      * eapply grows_eq; [exact (grows_trans _ _ _ _ _ _ _ Hgr1 Hgr')|..];
          destruct use_alpha_beta; lia.
Qed.

Lemma get_best_move_refines (use_alpha_beta : bool) (fuel : nat)
    (G : TicTacToe) (g : loc) (w : world) :
  heap w !! g = Some G -> well_formed G -> (blanks G <= fuel)%nat ->
  let r := choose (value_of use_alpha_beta fuel) G (moves G) None PosInf 0 in
  exists w', get_best_move fuel g use_alpha_beta w = Done (fst r, w') /\
             grows w w' (if use_alpha_beta then 0 else snd r)
                        (if use_alpha_beta then snd r else 0).
Proof.
  intros Hg Hwf Hfuel r. unfold get_best_move.
  assert (Hcells := query_done g get_empty_cells w G _ Hg
                      (get_empty_cells_done G Hwf)).
  rewrite <- (moves_filter G Hwf) in Hcells.
  rewrite (bind_done _ _ _ _ _ Hcells).
  destruct (get_best_move_loop use_alpha_beta fuel G g Hwf Hfuel (moves G)
              None PosInf 0 w (fun _ H => H) Hg)
    as (w' & st & Hloop & Hst & Hgr).
  exists w'. split.
  - erewrite bind_done by exact Hloop. unfold ret. now rewrite Hst.
  - eapply grows_eq; [exact Hgr|..]; destruct use_alpha_beta; fold r; lia.
Qed.

(** * Alpha-beta against minimax, on positions *)

Lemma ext_lt_enc (a b : ext) :
  bounded a -> bounded b -> (ext_lt a b = true <-> enc a < enc b).
Proof.
  destruct a, b; simpl; rewrite ?Z.ltb_lt; intros; split; intros;
    try lia; try discriminate; reflexivity.
Qed.

Lemma ext_lt_enc_false (a b : ext) :
  bounded a -> bounded b -> (ext_lt a b = false <-> enc b <= enc a).
Proof.
  destruct a, b; simpl; rewrite ?Z.ltb_ge; intros; split; intros;
    try lia; try discriminate; reflexivity.
Qed.

Lemma enc_inj (a b : ext) :
  bounded a -> bounded b -> (a = b <-> enc a = enc b).
Proof.
  destruct a, b; simpl; intros; split; intros E;
    try discriminate; try reflexivity; try lia.
  - now injection E.
  - now subst.
Qed.

Lemma py_max_spec (a b : ext) :
  (ext_lt a b = true /\ py_max a b = b) \/
  (ext_lt a b = false /\ py_max a b = a).
Proof. unfold py_max. destruct (ext_lt a b); auto. Qed.

Lemma py_min_spec (a b : ext) :
  (ext_lt b a = true /\ py_min a b = b) \/
  (ext_lt b a = false /\ py_min a b = a).
Proof. unfold py_min. destruct (ext_lt b a); auto. Qed.

Lemma bounded_pick (d : bool) (a b : ext) :
  bounded a -> bounded b -> bounded (pick d a b).
Proof.
  intros. destruct d; simpl; unfold py_max, py_min;
    destruct (ext_lt _ _); assumption.
Qed.

Lemma bounded_worst (d : bool) : bounded (worst d).
Proof. now destruct d. Qed.

Lemma bounded_py_max (a b : ext) :
  bounded a -> bounded b -> bounded (py_max a b).
Proof. apply (bounded_pick true). Qed.

Lemma bounded_py_min (a b : ext) :
  bounded a -> bounded b -> bounded (py_min a b).
Proof. apply (bounded_pick false). Qed.

Create HintDb scores.
#[export] Hint Resolve bounded_pick bounded_worst bounded_py_max
  bounded_py_min : scores.

(** Decides order facts between bounded scores: every [py_max] and [py_min]
    is resolved to one of its arguments, then the comparisons are read as
    comparisons of integers. *)
Ltac ext_lia :=
  intros; unfold sound, ext_le, pick, worst in *;
  repeat match goal with
         | |- context [py_max ?a ?b] =>
             let E := fresh in let P := fresh in
             destruct (py_max_spec a b) as [[E P]|[E P]];
             rewrite ?P in *; clear P
         | |- context [py_min ?a ?b] =>
             let E := fresh in let P := fresh in
             destruct (py_min_spec a b) as [[E P]|[E P]];
             rewrite ?P in *; clear P
         | H : context [py_max ?a ?b] |- _ =>
             let E := fresh in let P := fresh in
             destruct (py_max_spec a b) as [[E P]|[E P]];
             rewrite ?P in *; clear P
         | H : context [py_min ?a ?b] |- _ =>
             let E := fresh in let P := fresh in
             destruct (py_min_spec a b) as [[E P]|[E P]];
             rewrite ?P in *; clear P
         end;
  rewrite ?negb_true_iff, ?negb_false_iff in *;
  rewrite ?ext_lt_enc, ?ext_lt_enc_false, ?enc_inj in *
    by (assumption || exact I);
  simpl enc in *; lia.

Lemma ext_le_refl (a : ext) : ext_le a a = true.
Proof. unfold ext_le. destruct a; simpl; try reflexivity. now rewrite Z.ltb_irrefl. Qed.

Lemma sound_exact (a b v : ext) : sound a b v v.
Proof.
  unfold sound. rewrite ext_le_refl. repeat split; auto.
Qed.

Lemma sound_full (r v : ext) : sound NegInf PosInf r v -> r = v.
Proof.
  unfold sound, ext_le. intros (H1 & H2 & H3).
  destruct r; simpl in *.
  - specialize (H1 eq_refl). now destruct v.
  - symmetry. now apply H3.
  - specialize (H2 eq_refl). now destruct v.
Qed.

(** One iteration of the maximizing loop.  [a0] is the bound the call was
    given, [m] the running maximum of the pruned loop, [M] the running
    maximum of the full loop; the loop's own bound is [py_max a0 m]. *)
Lemma max_step (a0 b m M r v : ext) :
  bounded a0 -> bounded b -> bounded m -> bounded M -> bounded r ->
  bounded v ->
  ext_lt (py_max a0 m) b = true ->
  ext_le M m = true ->
  (ext_lt a0 m = true -> M = m) ->
  sound (py_max a0 m) b r v ->
  py_max (py_max a0 m) r = py_max a0 (py_max m r) /\
  (ext_le b (py_max (py_max a0 m) r) = true ->
     ext_le b (py_max m r) = true /\
     ext_le (py_max m r) (py_max M v) = true) /\
  (ext_le b (py_max (py_max a0 m) r) = false ->
     ext_lt (py_max a0 (py_max m r)) b = true /\
     ext_le (py_max M v) (py_max m r) = true /\
     (ext_lt a0 (py_max m r) = true -> py_max M v = py_max m r)).
Proof. ext_lia. Qed.

Lemma max_done (a0 b m M : ext) :
  bounded a0 -> bounded b -> bounded m -> bounded M ->
  ext_lt (py_max a0 m) b = true ->
  ext_le M m = true ->
  (ext_lt a0 m = true -> M = m) ->
  sound a0 b m M.
Proof. ext_lia. Qed.

Lemma max_cut (a0 b m M V : ext) :
  bounded a0 -> bounded b -> bounded m -> bounded M -> bounded V ->
  ext_lt a0 b = true ->
  ext_le b m = true -> ext_le m M = true -> ext_le M V = true ->
  sound a0 b m V.
Proof. ext_lia. Qed.

(** The same for the minimizing loop, whose own bound is [py_min b0 m]. *)
Lemma min_step (a b0 m M r v : ext) :
  bounded a -> bounded b0 -> bounded m -> bounded M -> bounded r ->
  bounded v ->
  ext_lt a (py_min b0 m) = true ->
  ext_le m M = true ->
  (ext_lt m b0 = true -> M = m) ->
  sound a (py_min b0 m) r v ->
  py_min (py_min b0 m) r = py_min b0 (py_min m r) /\
  (ext_le (py_min (py_min b0 m) r) a = true ->
     ext_le (py_min m r) a = true /\
     ext_le (py_min M v) (py_min m r) = true) /\
  (ext_le (py_min (py_min b0 m) r) a = false ->
     ext_lt a (py_min b0 (py_min m r)) = true /\
     ext_le (py_min m r) (py_min M v) = true /\
     (ext_lt (py_min m r) b0 = true -> py_min M v = py_min m r)).
Proof. ext_lia. Qed.

Lemma min_done (a b0 m M : ext) :
  bounded a -> bounded b0 -> bounded m -> bounded M ->
  ext_lt a (py_min b0 m) = true ->
  ext_le m M = true ->
  (ext_lt m b0 = true -> M = m) ->
  sound a b0 m M.
Proof. ext_lia. Qed.

Lemma min_cut (a b0 m M V : ext) :
  bounded a -> bounded b0 -> bounded m -> bounded M -> bounded V ->
  ext_lt a b0 = true ->
  ext_le m a = true -> ext_le M m = true -> ext_le V M = true ->
  sound a b0 m V.
Proof. ext_lia. Qed.

Lemma lt_of_max (a0 m b : ext) :
  bounded a0 -> bounded m -> bounded b ->
  ext_lt (py_max a0 m) b = true -> ext_lt a0 b = true.
Proof. ext_lia. Qed.

Lemma lt_of_min (a b0 m : ext) :
  bounded a -> bounded b0 -> bounded m ->
  ext_lt a (py_min b0 m) = true -> ext_lt a b0 = true.
Proof. ext_lia. Qed.

Lemma le_pick_true (a r : ext) :
  bounded a -> bounded r -> ext_le a (py_max a r) = true.
Proof. ext_lia. Qed.

Lemma le_pick_false (a r : ext) :
  bounded a -> bounded r -> ext_le (py_min a r) a = true.
Proof. ext_lia. Qed.

Lemma ext_le_trans (a b c : ext) :
  bounded a -> bounded b -> bounded c ->
  ext_le a b = true -> ext_le b c = true -> ext_le a c = true.
Proof. ext_lia. Qed.

Lemma score_range (G : TicTacToe) : -1 <= score G <= 1.
Proof.
  unfold score. destruct (settled false (is_winner G X));
    [lia|destruct (settled false (is_winner G O)); lia].
Qed.

Section Loops.
Variables (G : TicTacToe).
Variable child : TicTacToe -> ext -> ext -> ext * Z.
Variable full : TicTacToe -> ext * Z.
Hypothesis child_bounded : forall G' a b, bounded (fst (child G' a b)).
Hypothesis full_bounded : forall G', bounded (fst (full G')).

Lemma scan_bounded (d : bool) (cells : list (Z * Z)) :
  forall acc n, bounded acc -> bounded (fst (scan full d G cells acc n)).
Proof.
  induction cells as [|rc cells IH]; intros acc n Hacc; simpl; [exact Hacc|].
  apply IH. auto with scores.
Qed.

Lemma scan_cut_bounded (d : bool) (cells : list (Z * Z)) :
  forall acc a b n,
    bounded acc -> bounded (fst (scan_cut child d G cells acc a b n)).
Proof.
  induction cells as [|rc cells IH]; intros acc a b n Hacc; simpl;
    [exact Hacc|].
  destruct (ext_le _ _); simpl; [|apply IH]; auto with scores.
Qed.

Lemma scan_above (cells : list (Z * Z)) :
  forall acc n,
    bounded acc -> ext_le acc (fst (scan full true G cells acc n)) = true.
Proof.
  induction cells as [|rc cells IH]; intros acc n Hacc; simpl;
    [apply ext_le_refl|].
  eapply ext_le_trans;
    [| | |apply (le_pick_true acc (fst (full (play G rc))))|apply IH];
    auto using scan_bounded with scores.
Qed.

Lemma scan_below (cells : list (Z * Z)) :
  forall acc n,
    bounded acc -> ext_le (fst (scan full false G cells acc n)) acc = true.
Proof.
  induction cells as [|rc cells IH]; intros acc n Hacc; simpl;
    [apply ext_le_refl|].
  eapply ext_le_trans;
    [| | |apply IH|apply (le_pick_false acc (fst (full (play G rc))))];
    auto using scan_bounded with scores.
Qed.

(** The pruned maximizing loop against the full one. *)
Lemma scan_cut_max_sound (a0 b : ext) :
  bounded a0 -> bounded b ->
  (forall G' a, bounded a -> ext_lt a b = true ->
     sound a b (fst (child G' a b)) (fst (full G'))) ->
  forall cells m M alpha n n',
    bounded m -> bounded M ->
    alpha = py_max a0 m ->
    ext_lt alpha b = true ->
    ext_le M m = true ->
    (ext_lt a0 m = true -> M = m) ->
    sound a0 b (fst (scan_cut child true G cells m alpha b n))
               (fst (scan full true G cells M n')).
Proof.
  intros Ha0 Hb Hchild.
  induction cells as [|rc cells IH];
    intros m M alpha n n' Hm HM -> Hlt Hle Heq; simpl.
  - now apply max_done.
  - set (r := fst (child (play G rc) (py_max a0 m) b)).
    set (v := fst (full (play G rc))).
    assert (Hr : bounded r) by apply child_bounded.
    assert (Hv : bounded v) by apply full_bounded.
    assert (Hs : sound (py_max a0 m) b r v)
      by (apply Hchild; [auto with scores|exact Hlt]).
    destruct (max_step a0 b m M r v Ha0 Hb Hm HM Hr Hv Hlt Hle Heq Hs)
      as (Hassoc & Hcut & Hgo).
    destruct (ext_le b (py_max (py_max a0 m) r)) eqn:E; simpl.
    + destruct (Hcut eq_refl) as (H1 & H2).
      apply max_cut with (M := py_max M v);
        auto using scan_bounded with scores.
      * eapply lt_of_max; [| | |exact Hlt]; assumption.
      * apply scan_above. auto with scores.
    + destruct (Hgo eq_refl) as (H1 & H2 & H3).
      apply IH; auto with scores.
      now rewrite Hassoc.
Qed.

(** The pruned minimizing loop against the full one. *)
Lemma scan_cut_min_sound (a b0 : ext) :
  bounded a -> bounded b0 ->
  (forall G' b, bounded b -> ext_lt a b = true ->
     sound a b (fst (child G' a b)) (fst (full G'))) ->
  forall cells m M beta n n',
    bounded m -> bounded M ->
    beta = py_min b0 m ->
    ext_lt a beta = true ->
    ext_le m M = true ->
    (ext_lt m b0 = true -> M = m) ->
    sound a b0 (fst (scan_cut child false G cells m a beta n))
               (fst (scan full false G cells M n')).
Proof.
  intros Ha Hb0 Hchild.
  induction cells as [|rc cells IH];
    intros m M beta n n' Hm HM -> Hlt Hle Heq; simpl.
  - now apply min_done.
  - set (r := fst (child (play G rc) a (py_min b0 m))).
    set (v := fst (full (play G rc))).
    assert (Hr : bounded r) by apply child_bounded.
    assert (Hv : bounded v) by apply full_bounded.
    assert (Hs : sound a (py_min b0 m) r v)
      by (apply Hchild; [auto with scores|exact Hlt]).
    destruct (min_step a b0 m M r v Ha Hb0 Hm HM Hr Hv Hlt Hle Heq Hs)
      as (Hassoc & Hcut & Hgo).
    destruct (ext_le (py_min (py_min b0 m) r) a) eqn:E; simpl.
    + destruct (Hcut eq_refl) as (H1 & H2).
      apply min_cut with (M := py_min M v);
        auto using scan_bounded with scores.
      * eapply lt_of_min; [| | |exact Hlt]; assumption.
      * apply scan_below. auto with scores.
    + destruct (Hgo eq_refl) as (H1 & H2 & H3).
      apply IH; auto with scores.
      now rewrite Hassoc.
Qed.

(** Calls: the pruned loop makes no more than the full one. *)
Hypothesis child_fewer : forall G' a b, snd (child G' a b) <= snd (full G').
Hypothesis full_nonneg : forall G', 0 <= snd (full G').

Lemma scan_count (d : bool) (cells : list (Z * Z)) :
  forall acc n, n <= snd (scan full d G cells acc n).
Proof.
  induction cells as [|rc cells IH]; intros acc n; simpl; [lia|].
  specialize (IH (pick d acc (fst (full (play G rc))))
                 (n + snd (full (play G rc)))).
  specialize (full_nonneg (play G rc)). lia.
Qed.

Lemma scan_cut_count (d : bool) (cells : list (Z * Z)) :
  forall acc acc' a b n n',
    snd (scan_cut child d G cells acc a b n) - n
    <= snd (scan full d G cells acc' n') - n'.
Proof.
  induction cells as [|rc cells IH]; intros acc acc' a b n n'; simpl;
    [lia|].
  specialize (child_fewer (play G rc) a b).
  destruct (ext_le _ _); simpl.
  - pose proof (scan_count d cells (pick d acc' (fst (full (play G rc))))
                  (n' + snd (full (play G rc)))).
    lia.
  - specialize (IH (pick d acc (fst (child (play G rc) a b)))
                   (pick d acc' (fst (full (play G rc))))
                   (if d then py_max a (fst (child (play G rc) a b)) else a)
                   (if d then b else py_min b (fst (child (play G rc) a b)))
                   (n + snd (child (play G rc) a b))
                   (n' + snd (full (play G rc)))).
    lia.
Qed.
End Loops.

Lemma mm_bounded (fuel : nat) :
  forall G d, bounded (fst (mm fuel G d)).
Proof.
  induction fuel as [|fuel IH]; intros G d; simpl; [lia|].
  destruct (over G); simpl; [apply score_range|].
  apply scan_bounded; auto with scores.
Qed.

Lemma ab_bounded (fuel : nat) :
  forall G a b d, bounded (fst (ab fuel G a b d)).
Proof.
  induction fuel as [|fuel IH]; intros G a b d; simpl; [lia|].
  destruct (over G); simpl; [apply score_range|].
  apply scan_cut_bounded; auto with scores.
Qed.

Lemma mm_count_nonneg (fuel : nat) :
  forall G d, 0 <= snd (mm fuel G d).
Proof.
  induction fuel as [|fuel IH]; intros G d; simpl; [lia|].
  destruct (over G); simpl; [lia|].
  pose proof (scan_count G (fun G' => mm fuel G' (negb d))
                (fun G' => IH G' (negb d)) d (moves G) (worst d) 1).
  lia.
Qed.

Lemma mm_count_pos (fuel : nat) (G : TicTacToe) (d : bool) :
  1 <= snd (mm (S fuel) G d).
Proof.
  simpl. destruct (over G); simpl; [lia|].
  apply (scan_count G (fun G' => mm fuel G' (negb d))
           (fun G' => mm_count_nonneg fuel G' (negb d))).
Qed.

(** Alpha-beta with a window [(a, b)], [a < b], against minimax. *)
Lemma ab_sound (fuel : nat) :
  forall G a b d,
    bounded a -> bounded b -> ext_lt a b = true ->
    sound a b (fst (ab fuel G a b d)) (fst (mm fuel G d)).
Proof.
  induction fuel as [|fuel IH]; intros G a b d Ha Hb Hlt; simpl;
    [apply sound_exact|].
  destruct (over G); simpl; [apply sound_exact|].
  destruct d; simpl.
  - apply scan_cut_max_sound with (a0 := a);
      auto using ab_bounded, mm_bounded; try exact I.
    now destruct a.
  - apply scan_cut_min_sound with (b0 := b);
      auto using ab_bounded, mm_bounded; try exact I.
Qed.

(** With the full window the two searches return the same value. *)
Lemma ab_full (fuel : nat) (G : TicTacToe) (d : bool) :
  fst (ab fuel G NegInf PosInf d) = fst (mm fuel G d).
Proof. apply sound_full, ab_sound; reflexivity || exact I. Qed.

(** Whatever the window, alpha-beta makes no more calls than minimax. *)
Lemma ab_count_le (fuel : nat) :
  forall G a b d, snd (ab fuel G a b d) <= snd (mm fuel G d).
Proof.
  induction fuel as [|fuel IH]; intros G a b d; simpl; [lia|].
  destruct (over G); simpl; [lia|].
  pose proof (scan_cut_count G (fun G' a b => ab fuel G' a b (negb d))
                (fun G' => mm fuel G' (negb d))
                (fun G' a b => IH G' a b (negb d))
                (fun G' => mm_count_nonneg fuel G' (negb d))
                d (moves G) (worst d) (worst d) a b 1 1).
  lia.
Qed.

(** * Fuel *)

Lemma scan_ext (f g : TicTacToe -> ext * Z) (d : bool) (G : TicTacToe)
    (cells : list (Z * Z)) :
  (forall rc, rc ∈ cells -> f (play G rc) = g (play G rc)) ->
  forall acc n, scan f d G cells acc n = scan g d G cells acc n.
Proof.
  induction cells as [|rc cells IH]; intros Hfg acc n; simpl; [reflexivity|].
  rewrite (Hfg rc) by constructor.
  apply IH. intros rc' Hin. apply Hfg. now constructor.
Qed.

Lemma scan_cut_ext (f g : TicTacToe -> ext -> ext -> ext * Z) (d : bool)
    (G : TicTacToe) (cells : list (Z * Z)) :
  (forall rc a b, rc ∈ cells -> f (play G rc) a b = g (play G rc) a b) ->
  forall acc a b n,
    scan_cut f d G cells acc a b n = scan_cut g d G cells acc a b n.
Proof.
  induction cells as [|rc cells IH]; intros Hfg acc a b n; simpl;
    [reflexivity|].
  rewrite (Hfg rc) by constructor.
  destruct (ext_le _ _); [reflexivity|].
  apply IH. intros rc' a' b' Hin. apply Hfg. now constructor.
Qed.

Lemma choose_ext (f g : TicTacToe -> ext * Z) (G : TicTacToe)
    (cells : list (Z * Z)) :
  (forall rc, rc ∈ cells -> f (play G rc) = g (play G rc)) ->
  forall bm bv n, choose f G cells bm bv n = choose g G cells bm bv n.
Proof.
  induction cells as [|rc cells IH]; intros Hfg bm bv n; simpl; [reflexivity|].
  rewrite (Hfg rc) by constructor.
  destruct (ext_lt _ _); apply IH; intros rc' Hin; apply Hfg; now constructor.
Qed.

(** Once the fuel exceeds the number of blank cells, more fuel changes
    nothing. *)
Lemma mm_fuel (n : nat) :
  forall m G d,
    well_formed G -> (blanks G < n)%nat -> (blanks G < m)%nat ->
    mm n G d = mm m G d.
Proof.
  induction n as [|n IH]; intros [|m] G d Hwf Hn Hm; try lia; simpl.
  destruct (over G); [reflexivity|].
  apply scan_ext. intros rc Hrc.
  destruct (play_spec G rc Hwf Hrc) as (_ & Hwf' & Hbl & _).
  apply IH; [exact Hwf'|lia|lia].
Qed.

Lemma ab_fuel (n : nat) :
  forall m G a b d,
    well_formed G -> (blanks G < n)%nat -> (blanks G < m)%nat ->
    ab n G a b d = ab m G a b d.
Proof.
  induction n as [|n IH]; intros [|m] G a b d Hwf Hn Hm; try lia; simpl.
  destruct (over G); [reflexivity|].
  apply scan_cut_ext. intros rc a' b' Hrc.
  destruct (play_spec G rc Hwf Hrc) as (_ & Hwf' & Hbl & _).
  apply IH; [exact Hwf'|lia|lia].
Qed.

Lemma value_of_fuel (use_alpha_beta : bool) (n m : nat) (G : TicTacToe) :
  well_formed G -> (blanks G < n)%nat -> (blanks G < m)%nat ->
  value_of use_alpha_beta n G = value_of use_alpha_beta m G.
Proof.
  intros. unfold value_of.
  destruct use_alpha_beta; [now apply ab_fuel|now apply mm_fuel].
Qed.

Lemma choose_fuel (use_alpha_beta : bool) (n m : nat) (G : TicTacToe) :
  well_formed G -> (blanks G <= n)%nat -> (blanks G <= m)%nat ->
  forall bm bv k,
    choose (value_of use_alpha_beta n) G (moves G) bm bv k
    = choose (value_of use_alpha_beta m) G (moves G) bm bv k.
Proof.
  intros Hwf Hn Hm. apply choose_ext. intros rc Hrc.
  destruct (play_spec G rc Hwf Hrc) as (_ & Hwf' & Hbl & _).
  apply value_of_fuel; [exact Hwf'|lia|lia].
Qed.

(** With less fuel minimax counts no more calls. *)
Lemma scan_count_mono (f g : TicTacToe -> ext * Z) (d : bool)
    (G : TicTacToe) (cells : list (Z * Z)) :
  (forall G', snd (f G') <= snd (g G')) ->
  forall acc acc' n n',
    snd (scan f d G cells acc n) - n <= snd (scan g d G cells acc' n') - n'.
Proof.
  intros Hfg. induction cells as [|rc cells IH]; intros acc acc' n n'; simpl;
    [lia|].
  specialize (IH (pick d acc (fst (f (play G rc))))
                 (pick d acc' (fst (g (play G rc))))
                 (n + snd (f (play G rc))) (n' + snd (g (play G rc)))).
  specialize (Hfg (play G rc)). lia.
Qed.

Lemma mm_count_mono (n : nat) :
  forall m G d d', (n <= m)%nat -> snd (mm n G d) <= snd (mm m G d').
Proof.
  induction n as [|n IH]; intros m G d d' Hnm; simpl;
    [apply mm_count_nonneg|].
  destruct m as [|m]; [lia|]. simpl.
  destruct (over G); simpl; [lia|].
  pose proof (scan_count_mono (fun G' => mm n G' (negb d))
                (fun G' => mm m G' (negb d')) d G (moves G)
                (fun G' => IH m G' (negb d) (negb d') ltac:(lia))
                (worst d) (worst d) 1 1) as H.
  assert (E : forall h acc acc' k,
             snd (scan h d G (moves G) acc k)
             = snd (scan h d' G (moves G) acc' k)).
  { intros h. generalize (moves G).
    induction l as [|rc l IHl]; intros acc acc' k; simpl; [reflexivity|].
    apply IHl. }
  rewrite <- (E _ (worst d) (worst d') 1). lia.
Qed.

Lemma choose_count_mono (f g : TicTacToe -> ext * Z) (G : TicTacToe)
    (cells : list (Z * Z)) :
  (forall G', snd (f G') <= snd (g G')) ->
  forall bm bm' bv bv' n n',
    snd (choose f G cells bm bv n) - n
    <= snd (choose g G cells bm' bv' n') - n'.
Proof.
  intros Hfg.
  induction cells as [|rc cells IH]; intros bm bm' bv bv' n n'; simpl; [lia|].
  specialize (Hfg (play G rc)).
  destruct (ext_lt (fst (f (play G rc))) bv),
           (ext_lt (fst (g (play G rc))) bv');
    match goal with
    | |- snd (choose f G cells ?a ?b ?c) - _
         <= snd (choose g G cells ?a' ?b' ?c') - _ =>
        specialize (IH a a' b b' c c')
    end; lia.
Qed.

(** * No infinity escapes *)

Lemma finite_bounded_score (v : ext) : finite v -> bounded v -> is_score v.
Proof.
  destruct v as [|z|]; simpl; intros Hf Hb; try contradiction.
  unfold is_score.
  assert (z = -1 \/ z = 0 \/ z = 1) as [->|[->| ->]] by lia; auto.
Qed.

Lemma pick_finite (d : bool) (acc r : ext) :
  finite r -> finite acc \/ acc = worst d -> finite (pick d acc r).
Proof.
  intros Hr [Hacc| ->].
  - destruct d; simpl; unfold py_max, py_min; destruct (ext_lt _ _);
      assumption.
  - destruct d, r; simpl in *; try contradiction; exact I.
Qed.

Lemma scan_finite (child : TicTacToe -> ext * Z) (d : bool) (G : TicTacToe)
    (cells : list (Z * Z)) :
  (forall rc, rc ∈ cells -> finite (fst (child (play G rc)))) ->
  forall acc n,
    finite acc \/ (acc = worst d /\ cells <> []) ->
    finite (fst (scan child d G cells acc n)).
Proof.
  induction cells as [|rc cells IH]; intros Hc acc n Hacc; simpl.
  - destruct Hacc as [H|[_ H]]; [exact H|congruence].
  - apply IH; [intros rc' Hin; apply Hc; now constructor|].
    left. apply pick_finite; [apply Hc; constructor|tauto].
Qed.

Lemma scan_cut_finite (child : TicTacToe -> ext -> ext -> ext * Z)
    (d : bool) (G : TicTacToe) (cells : list (Z * Z)) :
  (forall rc a b, rc ∈ cells -> finite (fst (child (play G rc) a b))) ->
  forall acc a b n,
    finite acc \/ (acc = worst d /\ cells <> []) ->
    finite (fst (scan_cut child d G cells acc a b n)).
Proof.
  induction cells as [|rc cells IH]; intros Hc acc a b n Hacc; simpl.
  - destruct Hacc as [H|[_ H]]; [exact H|congruence].
  - assert (Hp : finite (pick d acc (fst (child (play G rc) a b))))
      by (apply pick_finite; [apply Hc; constructor|tauto]).
    destruct (ext_le _ _); simpl; [exact Hp|].
    apply IH; [intros rc' a' b' Hin; apply Hc; now constructor|now left].
Qed.

Lemma mm_finite (fuel : nat) :
  forall G d,
    well_formed G -> (blanks G < fuel)%nat -> finite (fst (mm fuel G d)).
Proof.
  induction fuel as [|fuel IH]; intros G d Hwf Hfuel; [lia|]. simpl.
  destruct (over G) eqn:Hov; simpl; [exact I|].
  apply scan_finite.
  - intros rc Hrc.
    destruct (play_spec G rc Hwf Hrc) as (_ & Hwf' & Hbl & _).
    apply IH; [exact Hwf'|lia].
  - right. split; [reflexivity|now apply moves_nonempty].
Qed.

Lemma ab_finite (fuel : nat) :
  forall G a b d,
    well_formed G -> (blanks G < fuel)%nat ->
    finite (fst (ab fuel G a b d)).
Proof.
  induction fuel as [|fuel IH]; intros G a b d Hwf Hfuel; [lia|]. simpl.
  destruct (over G) eqn:Hov; simpl; [exact I|].
  apply scan_cut_finite.
  - intros rc a' b' Hrc.
    destruct (play_spec G rc Hwf Hrc) as (_ & Hwf' & Hbl & _).
    apply IH; [exact Hwf'|lia].
  - right. split; [reflexivity|now apply moves_nonempty].
Qed.

(** * Value and cost of the two searches *)

(** C1: for every board, depth and turn flag, [alpha_beta] called with
    alpha = -infinity and beta = +infinity returns the value [minimax]
    returns. *)
Theorem alpha_beta_equals_minimax (fuel : nat) (G : TicTacToe) (g : loc)
    (depth : Z) (turn : bool) (w : world) :
  heap w !! g = Some G -> well_formed G -> (blanks G < fuel)%nat ->
  exists v w1 w2,
    minimax fuel g depth turn w = Done (v, w1) /\
    alpha_beta fuel g depth NegInf PosInf turn w = Done (v, w2).
Proof.
  intros Hg Hwf Hfuel.
  destruct (minimax_refines fuel G g depth turn w Hg Hwf Hfuel)
    as (w1 & Hmm & _).
  destruct (alpha_beta_refines fuel G g depth NegInf PosInf turn w Hg Hwf
              Hfuel) as (w2 & Hab & _).
  exists (fst (mm fuel G turn)), w1, w2. split; [exact Hmm|].
  rewrite Hab. now rewrite ab_full.
Qed.

Lemma alpha_beta_equals_minimax_witness :
  exists v w1 w2,
    minimax 4 0%nat 0 true (one_game late_game) = Done (v, w1) /\
    alpha_beta 4 0%nat 0 NegInf PosInf true (one_game late_game)
    = Done (v, w2).
Proof.
  apply (alpha_beta_equals_minimax 4 late_game 0%nat 0 true
           (one_game late_game)).
  - reflexivity.
  - reflexivity.
  - vm_compute. lia.
Defined.

Lemma opening_value : fst (ab 10 new_game NegInf PosInf true) = Fin 0.
Proof. vm_compute. reflexivity. Qed.

Lemma new_game_well_formed : well_formed new_game.
Proof. reflexivity. Qed.

Lemma new_game_blanks : blanks new_game = 9%nat.
Proof. reflexivity. Qed.

(** C2: from the empty board with the maximizing flag set, [minimax] and
    [alpha_beta] (full window) both return 0. *)
Theorem empty_board_is_a_draw (fuel : nat) (g : loc) (w : world) :
  (9 < fuel)%nat -> heap w !! g = Some new_game ->
  (exists w', minimax fuel g 0 true w = Done (Fin 0, w')) /\
  (exists w', alpha_beta fuel g 0 NegInf PosInf true w = Done (Fin 0, w')).
Proof.
  intros Hfuel Hg.
  assert (Hbl : (blanks new_game < fuel)%nat) by (rewrite new_game_blanks; lia).
  assert (Hv : fst (ab fuel new_game NegInf PosInf true) = Fin 0).
  { rewrite (ab_fuel fuel 10 new_game NegInf PosInf true
               new_game_well_formed Hbl)
      by (rewrite new_game_blanks; lia).
    exact opening_value. }
  destruct (minimax_refines fuel new_game g 0 true w Hg new_game_well_formed
              Hbl) as (w1 & Hmm & _).
  destruct (alpha_beta_refines fuel new_game g 0 NegInf PosInf true w Hg
              new_game_well_formed Hbl) as (w2 & Hab & _).
  split.
  - exists w1. rewrite Hmm. now rewrite <- ab_full, Hv.
  - exists w2. rewrite Hab. now rewrite Hv.
Qed.

Lemma empty_board_is_a_draw_witness :
  (exists w', minimax 10 0%nat 0 true (one_game new_game) = Done (Fin 0, w')) /\
  (exists w', alpha_beta 10 0%nat 0 NegInf PosInf true (one_game new_game)
              = Done (Fin 0, w')).
Proof.
  apply (empty_board_is_a_draw 10 0%nat (one_game new_game)).
  - lia.
  - reflexivity.
Defined.

Lemma opening_alpha_beta_nodes :
  snd (choose (value_of true 9) new_game (moves new_game) None PosInf 0)
  = 19025.
Proof. vm_compute. reflexivity. Qed.

(** Calls of plain minimax within six plies of the nine successors of the
    empty board. *)
Lemma opening_minimax_nodes_six_plies :
  snd (choose (value_of false 6) new_game (moves new_game) None PosInf 0)
  = 73449.
Proof. vm_compute. reflexivity. Qed.

Lemma opening_nodes (fuel : nat) :
  (8 < fuel)%nat ->
  snd (choose (value_of true fuel) new_game (moves new_game) None PosInf 0)
  < snd (choose (value_of false fuel) new_game (moves new_game) None PosInf 0).
Proof.
  intros Hfuel.
  rewrite (choose_fuel true fuel 9 new_game new_game_well_formed)
    by (rewrite new_game_blanks; lia).
  rewrite opening_alpha_beta_nodes.
  pose proof (choose_count_mono (value_of false 6) (value_of false fuel)
                new_game (moves new_game)
                (fun G' => mm_count_mono 6 fuel G' true true ltac:(lia))
                None None PosInf PosInf 0 0) as H.
  rewrite opening_minimax_nodes_six_plies in H. lia.
Qed.

(** C3: from the same position with the same flag, and whatever window
    [alpha_beta] is given, the calls [alpha_beta] makes (the increase of its
    counter) are at most the calls [minimax] makes; and for [get_best_move]
    on the empty board the alpha-beta count is strictly smaller. *)
Theorem alpha_beta_visits_fewer (fuel : nat) (G : TicTacToe) (g : loc)
    (depth : Z) (alpha beta : ext) (turn : bool) (w : world) :
  heap w !! g = Some G -> well_formed G -> (blanks G < fuel)%nat ->
  (exists v1 w1 v2 w2,
     minimax fuel g depth turn w = Done (v1, w1) /\
     alpha_beta fuel g depth alpha beta turn w = Done (v2, w2) /\
     nodes_visited_alpha_beta (ai w2) - nodes_visited_alpha_beta (ai w)
     <= nodes_visited_minimax (ai w1) - nodes_visited_minimax (ai w)) /\
  (G = new_game ->
   exists m1 w1 m2 w2,
     get_best_move fuel g false w = Done (m1, w1) /\
     get_best_move fuel g true w = Done (m2, w2) /\
     nodes_visited_alpha_beta (ai w2) - nodes_visited_alpha_beta (ai w)
     < nodes_visited_minimax (ai w1) - nodes_visited_minimax (ai w)).
Proof.
  intros Hg Hwf Hfuel. split.
  - destruct (minimax_refines fuel G g depth turn w Hg Hwf Hfuel)
      as (w1 & Hmm & _ & Hc1 & _).
    destruct (alpha_beta_refines fuel G g depth alpha beta turn w Hg Hwf
                Hfuel) as (w2 & Hab & _ & _ & Hc2).
    exists (fst (mm fuel G turn)), w1, (fst (ab fuel G alpha beta turn)), w2.
    split; [exact Hmm|split; [exact Hab|]].
    pose proof (ab_count_le fuel G alpha beta turn). lia.
  - intros ->. rewrite new_game_blanks in Hfuel.
    destruct (get_best_move_refines false fuel new_game g w Hg Hwf)
      as (w1 & Hm1 & _ & Hc1 & _); [rewrite new_game_blanks; lia|].
    destruct (get_best_move_refines true fuel new_game g w Hg Hwf)
      as (w2 & Hm2 & _ & _ & Hc2); [rewrite new_game_blanks; lia|].
    eexists _, w1, _, w2. split; [exact Hm1|split; [exact Hm2|]].
    pose proof (opening_nodes fuel ltac:(lia)). lia.
Qed.

Lemma alpha_beta_visits_fewer_witness :
  (exists v1 w1 v2 w2,
     minimax 10 0%nat 0 true (one_game new_game) = Done (v1, w1) /\
     alpha_beta 10 0%nat 0 (Fin 0) (Fin 1) true (one_game new_game)
     = Done (v2, w2) /\
     nodes_visited_alpha_beta (ai w2)
       - nodes_visited_alpha_beta (ai (one_game new_game))
     <= nodes_visited_minimax (ai w1)
       - nodes_visited_minimax (ai (one_game new_game))) /\
  (new_game = new_game ->
   exists m1 w1 m2 w2,
     get_best_move 10 0%nat false (one_game new_game) = Done (m1, w1) /\
     get_best_move 10 0%nat true (one_game new_game) = Done (m2, w2) /\
     nodes_visited_alpha_beta (ai w2)
       - nodes_visited_alpha_beta (ai (one_game new_game))
     < nodes_visited_minimax (ai w1)
       - nodes_visited_minimax (ai (one_game new_game))).
Proof.
  apply (alpha_beta_visits_fewer 10 new_game 0%nat 0 (Fin 0) (Fin 1) true
           (one_game new_game)).
  - reflexivity.
  - reflexivity.
  - vm_compute. lia.
Defined.

(** C6: for every board and either turn flag, [minimax] returns -1, 0 or 1,
    and so does [alpha_beta] called with alpha = -infinity and
    beta = +infinity: the infinite start of the running extremum is never
    the result. *)
Theorem search_value_is_a_score (fuel : nat) (G : TicTacToe) (g : loc)
    (depth : Z) (turn : bool) (w : world) :
  heap w !! g = Some G -> well_formed G -> (blanks G < fuel)%nat ->
  (exists v w', minimax fuel g depth turn w = Done (v, w') /\ is_score v) /\
  (exists v w', alpha_beta fuel g depth NegInf PosInf turn w = Done (v, w') /\
                is_score v).
Proof.
  intros Hg Hwf Hfuel. split.
  - destruct (minimax_refines fuel G g depth turn w Hg Hwf Hfuel)
      as (w' & Hrun & _).
    exists (fst (mm fuel G turn)), w'. split; [exact Hrun|].
    apply finite_bounded_score; [now apply mm_finite|apply mm_bounded].
  - destruct (alpha_beta_refines fuel G g depth NegInf PosInf turn w Hg Hwf
                Hfuel) as (w' & Hrun & _).
    exists (fst (ab fuel G NegInf PosInf turn)), w'. split; [exact Hrun|].
    apply finite_bounded_score; [now apply ab_finite|apply ab_bounded].
Qed.

Lemma search_value_is_a_score_witness :
  (exists v w', minimax 4 0%nat 0 false (one_game late_game) = Done (v, w') /\
                is_score v) /\
  (exists v w', alpha_beta 4 0%nat 0 NegInf PosInf false (one_game late_game)
                = Done (v, w') /\ is_score v).
Proof.
  apply (search_value_is_a_score 4 late_game 0%nat 0 false
           (one_game late_game)).
  - reflexivity.
  - reflexivity.
  - vm_compute. lia.
Defined.

(** C10: [minimax] and [alpha_beta] terminate on every board.  A board has
    at most nine blank cells; with none it is full, hence over; a move taken
    from [get_empty_cells] fills exactly one blank of the copy; so fuel for
    one call more than there are blanks (ten at most: the first call and
    nine nested ones) is enough for both searches to return. *)
Theorem searches_terminate (G : TicTacToe) :
  well_formed G ->
  (blanks G <= 9)%nat /\
  (blanks G = 0%nat ->
     is_board_full G = true /\ is_game_over G = Done true) /\
  (forall cells rc,
     get_empty_cells G = Done cells -> rc ∈ cells ->
     exists G', make_move G (fst rc) (snd rc) = Done (true, G') /\
                well_formed G' /\ (blanks G' + 1 = blanks G)%nat) /\
  (forall fuel g depth alpha beta turn w,
     heap w !! g = Some G -> (blanks G < fuel)%nat ->
     (exists v w', minimax fuel g depth turn w = Done (v, w')) /\
     (exists v w', alpha_beta fuel g depth alpha beta turn w = Done (v, w'))).
Proof.
  intros Hwf. split; [now apply blanks_bound|split; [|split]].
  - intros H0. pose proof (full_no_blanks G Hwf H0) as Hfull.
    split; [exact Hfull|].
    rewrite (is_game_over_done G Hwf). f_equal.
    destruct (over G) eqn:Hov; [reflexivity|].
    rewrite (over_not_full G Hwf Hov) in Hfull. discriminate.
  - intros cells rc Hcells Hrc.
    assert (Hin : rc ∈ moves G) by (unfold moves; now rewrite Hcells).
    destruct (play_spec G rc Hwf Hin) as (Hmv & Hwf' & Hbl & _).
    exists (play G rc). auto.
  - intros fuel g depth alpha beta turn w Hg Hfuel. split.
    + destruct (minimax_refines fuel G g depth turn w Hg Hwf Hfuel)
        as (w' & Hrun & _). eauto.
    + destruct (alpha_beta_refines fuel G g depth alpha beta turn w Hg Hwf
                  Hfuel) as (w' & Hrun & _). eauto.
Qed.

Lemma searches_terminate_witness :
  (blanks new_game <= 9)%nat /\
  (blanks new_game = 0%nat ->
     is_board_full new_game = true /\ is_game_over new_game = Done true) /\
  (forall cells rc,
     get_empty_cells new_game = Done cells -> rc ∈ cells ->
     exists G', make_move new_game (fst rc) (snd rc) = Done (true, G') /\
                well_formed G' /\ (blanks G' + 1 = blanks new_game)%nat) /\
  (forall fuel g depth alpha beta turn w,
     heap w !! g = Some new_game -> (blanks new_game < fuel)%nat ->
     (exists v w', minimax fuel g depth turn w = Done (v, w')) /\
     (exists v w', alpha_beta fuel g depth alpha beta turn w = Done (v, w'))).
Proof.
  apply (searches_terminate new_game). reflexivity.
Defined.

(** * make_move *)

Lemma in_grid_cases (row col : Z) :
  in_grid row col ->
  (row, col) = (0, 0) \/ (row, col) = (0, 1) \/ (row, col) = (0, 2) \/
  (row, col) = (1, 0) \/ (row, col) = (1, 1) \/ (row, col) = (1, 2) \/
  (row, col) = (2, 0) \/ (row, col) = (2, 1) \/ (row, col) = (2, 2).
Proof.
  intros [Hr Hc].
  assert (row = 0 \/ row = 1 \/ row = 2) as [->|[->| ->]] by lia;
    assert (col = 0 \/ col = 1 \/ col = 2) as [->|[->| ->]] by lia; tauto.
Qed.

Ltac each_cell H :=
  destruct H as [H|[H|[H|[H|[H|[H|[H|[H|H]]]]]]]]; injection H as -> ->.

Lemma make_move_outside (G : TicTacToe) (row col : Z) :
  ~ in_grid row col -> make_move G row col = Done (false, G).
Proof.
  intros Hout. unfold make_move, in_grid in *.
  destruct (0 <=? row) eqn:E1, (row <? 3) eqn:E2, (0 <=? col) eqn:E3,
           (col <? 3) eqn:E4; simpl; try reflexivity.
  apply Z.leb_le in E1, E3. apply Z.ltb_lt in E2, E4. lia.
Qed.

Lemma make_move_occupied (G : TicTacToe) (row col : Z) (p : player) :
  cell_at (board G) row col = Done (Mark p) ->
  make_move G row col = Done (false, G).
Proof.
  intros Hc. unfold make_move. rewrite Hc.
  destruct (_ && _); reflexivity.
Qed.

Lemma cell_at_done (G : TicTacToe) (row col : Z) :
  well_formed G -> in_grid row col ->
  exists c, cell_at (board G) row col = Done c.
Proof.
  intros Hwf Hin. apply in_grid_cases in Hin. grid G Hwf.
  each_cell Hin; eexists; reflexivity.
Qed.

(** A successful [make_move] on a well-formed board. *)
Lemma make_move_inside (G : TicTacToe) (row col : Z) :
  well_formed G -> in_grid row col ->
  cell_at (board G) row col = Done Blank ->
  exists G',
    make_move G row col = Done (true, G') /\
    well_formed G' /\
    current_player G' = other (current_player G) /\
    cell_at (board G') row col = Done (Mark (current_player G)) /\
    (forall r c, in_grid r c -> (r, c) <> (row, col) ->
       cell_at (board G') r c = cell_at (board G) r c) /\
    mark_count (current_player G) G'
      = S (mark_count (current_player G) G) /\
    mark_count (other (current_player G)) G'
      = mark_count (other (current_player G)) G.
Proof.
  intros Hwf Hin Hb. apply in_grid_cases in Hin. grid G Hwf.
  each_cell Hin; cbv in Hb; injection Hb as ->;
    (eexists; split; [reflexivity|split; [reflexivity|]]);
    (split; [now destruct turn|split; [reflexivity|split; [|split]]]);
    try (intros row' col' Hrc Hne; apply in_grid_cases in Hrc; each_cell Hrc;
         first [reflexivity|congruence]);
    unfold mark_count; destruct turn; simpl; lia.
Qed.

Lemma make_move_true_inv (G G' : TicTacToe) (row col : Z) :
  make_move G row col = Done (true, G') ->
  in_grid row col /\ cell_at (board G) row col = Done Blank.
Proof.
  unfold make_move, in_grid.
  destruct (0 <=? row) eqn:E1, (row <? 3) eqn:E2, (0 <=? col) eqn:E3,
           (col <? 3) eqn:E4; simpl; try discriminate.
  apply Z.leb_le in E1, E3. apply Z.ltb_lt in E2, E4.
  destruct (cell_at (board G) row col) as [[|p]| |]; simpl; try discriminate.
  intros _. split; [lia|reflexivity].
Qed.

(** C5: on a board object, [make_move(row, col)] returns [True], writes the
    mark of the current player into the cell and passes the turn exactly when
    both coordinates are in 0..2 and the cell is blank; in every other case
    (for instance row 5, or an occupied cell) it returns [False] and the
    object is unchanged. *)
Theorem make_move_contract (self : TicTacToe) (row col : Z) :
  well_formed self ->
  let legal := in_grid row col /\ cell_at (board self) row col = Done Blank in
  (legal ->
   exists self',
     make_move self row col = Done (true, self') /\
     cell_at (board self') row col = Done (Mark (current_player self)) /\
     (forall r c, in_grid r c -> (r, c) <> (row, col) ->
        cell_at (board self') r c = cell_at (board self) r c) /\
     current_player self' = other (current_player self)) /\
  (~ legal -> make_move self row col = Done (false, self)) /\
  ((exists self', make_move self row col = Done (true, self')) <-> legal).
Proof.
  intros Hwf legal. split; [|split].
  - intros [Hin Hb].
    destruct (make_move_inside self row col Hwf Hin Hb)
      as (self' & Hmv & _ & Hturn & Hcell & Hrest & _).
    exists self'. auto.
  - intros Hno.
    assert (Hdec : in_grid row col \/ ~ in_grid row col)
      by (unfold in_grid; lia).
    destruct Hdec as [Hin|Hout]; [|now apply make_move_outside].
    destruct (cell_at_done self row col Hwf Hin) as ([|p] & Hc).
    + exfalso. apply Hno. now split.
    + now apply make_move_occupied with p.
  - split.
    + intros (self' & Hmv). now apply make_move_true_inv in Hmv.
    + intros [Hin Hb].
      destruct (make_move_inside self row col Hwf Hin Hb)
        as (self' & Hmv & _).
      now exists self'.
Qed.

Lemma make_move_contract_witness :
  let legal := in_grid 5 0 /\ cell_at (board new_game) 5 0 = Done Blank in
  (legal ->
   exists self',
     make_move new_game 5 0 = Done (true, self') /\
     cell_at (board self') 5 0 = Done (Mark (current_player new_game)) /\
     (forall r c, in_grid r c -> (r, c) <> (5, 0) ->
        cell_at (board self') r c = cell_at (board new_game) r c) /\
     current_player self' = other (current_player new_game)) /\
  (~ legal -> make_move new_game 5 0 = Done (false, new_game)) /\
  ((exists self', make_move new_game 5 0 = Done (true, self')) <-> legal).
Proof.
  apply (make_move_contract new_game 5 0). reflexivity.
Defined.

(** The scenario of the specification: row 5 is refused and the board is
    unchanged; so is a move to an occupied cell. *)
Example make_move_row_5 :
  make_move new_game 5 1 = Done (false, new_game) /\
  make_move late_game 0 0 = Done (false, late_game).
Proof. split; reflexivity. Qed.

(** * Reachable boards *)

Lemma board_invariant_new : board_invariant new_game.
Proof. repeat split; auto. Qed.

Lemma board_invariant_move (G G' : TicTacToe) (row col : Z) :
  board_invariant G -> make_move G row col = Done (true, G') ->
  board_invariant G'.
Proof.
  intros (Hwf & Hcount & Hturn) Hmv.
  destruct (make_move_true_inv G G' row col Hmv) as [Hin Hb].
  destruct (make_move_inside G row col Hwf Hin Hb)
    as (G'' & Hmv' & Hwf' & Ht & _ & _ & Hc1 & Hc2).
  rewrite Hmv in Hmv'. injection Hmv' as <-.
  split; [exact Hwf'|]. rewrite Ht.
  destruct (current_player G); simpl in *.
  - assert (mark_count X G = mark_count O G) by now apply Hturn.
    split; [lia|]. split; [discriminate|lia].
  - assert (mark_count X G <> mark_count O G)
      by (intros E; apply Hturn in E; discriminate).
    split; [lia|]. split; [lia|reflexivity].
Qed.

Lemma follows_invariant (G G' : TicTacToe) :
  follows G G' -> board_invariant G -> board_invariant G'.
Proof.
  induction 1 as [|G1 G2 row col _ IH Hmv]; intros HG; [exact HG|].
  eapply board_invariant_move; [apply IH; exact HG|exact Hmv].
Qed.

Lemma follows_well_formed (G G' : TicTacToe) :
  follows G G' -> well_formed G -> well_formed G'.
Proof.
  induction 1 as [|G1 G2 row col _ IH Hmv]; intros HG; [exact HG|].
  destruct (make_move_true_inv G1 G2 row col Hmv) as [Hin Hb].
  destruct (make_move_inside G1 row col (IH HG) Hin Hb)
    as (G'' & Hmv' & Hwf' & _).
  rewrite Hmv in Hmv'. now injection Hmv' as <-.
Qed.

Lemma follows_keeps_marks (G G' : TicTacToe) :
  follows G G' -> well_formed G ->
  forall r c p, in_grid r c ->
    cell_at (board G) r c = Done (Mark p) ->
    cell_at (board G') r c = Done (Mark p).
Proof.
  induction 1 as [|G1 G2 row col Hf IH Hmv]; intros HG r c p Hrc Hc;
    [exact Hc|].
  specialize (IH HG r c p Hrc Hc).
  destruct (make_move_true_inv G1 G2 row col Hmv) as [Hin Hb].
  destruct (make_move_inside G1 row col (follows_well_formed G G1 Hf HG)
              Hin Hb) as (G'' & Hmv' & _ & _ & _ & Hrest & _).
  rewrite Hmv in Hmv'. injection Hmv' as <-.
  rewrite Hrest; [exact IH|exact Hrc|].
  intros E. injection E as -> ->. congruence.
Qed.

(** C7: on every board reached from a new game by successful moves, the
    X marks are as many as the O marks or one more, X is to move exactly
    when they are equal, and a mark present on the board is still there,
    unchanged, after any further successful moves. *)
Theorem reachable_board_invariant (G : TicTacToe) :
  reachable G ->
  (mark_count X G = mark_count O G \/ mark_count X G = S (mark_count O G)) /\
  (current_player G = X <-> mark_count X G = mark_count O G) /\
  (forall G' r c p,
     follows G G' -> in_grid r c ->
     cell_at (board G) r c = Done (Mark p) ->
     cell_at (board G') r c = Done (Mark p)).
Proof.
  intros Hreach.
  destruct (follows_invariant new_game G Hreach board_invariant_new)
    as (Hwf & Hcount & Hturn).
  split; [exact Hcount|split; [exact Hturn|]].
  intros G' r c p Hf. now apply follows_keeps_marks.
Qed.

Lemma reachable_board_invariant_witness :
  (mark_count X two_moves = mark_count O two_moves \/
   mark_count X two_moves = S (mark_count O two_moves)) /\
  (current_player two_moves = X <->
   mark_count X two_moves = mark_count O two_moves) /\
  (forall G' r c p,
     follows two_moves G' -> in_grid r c ->
     cell_at (board two_moves) r c = Done (Mark p) ->
     cell_at (board G') r c = Done (Mark p)).
Proof.
  apply (reachable_board_invariant two_moves).
  eapply (follows_move _ _ _ 0 0);
    [eapply (follows_move _ _ _ 1 1); [apply follows_here|]|];
    reflexivity.
Defined.

(** * The searches leave the caller's objects alone *)

Lemma grows_untouched (w w' : world) (dm da : Z) :
  grows w w' dm da -> untouched w w'.
Proof. intros H l obj Hl. eapply grows_lookup; eassumption. Qed.

(** [copy.deepcopy] returns an object that did not exist before, and a move
    made on it changes no other object. *)
Lemma deepcopy_fresh (g : loc) (G : TicTacToe) (w : world) :
  heap w !! g = Some G ->
  exists l w',
    deepcopy g w = Done (l, w') /\
    heap w !! l = None /\ heap w' !! l = Some G /\ untouched w w'.
Proof.
  intros Hg. exists (length (heap w)), (mkWorld (heap w ++ [G]) (ai w)).
  unfold deepcopy, bind, read. rewrite Hg. simpl.
  split; [reflexivity|split; [|split]].
  - apply lookup_ge_None. lia.
  - now rewrite list_lookup_middle.
  - intros l obj Hl. simpl. now apply lookup_app_l_Some.
Qed.

Lemma do_make_move_local (l : loc) (row col : Z) (w w' : world) (r : bool) :
  do_make_move l row col w = Done (r, w') ->
  forall l' : loc, l' <> l -> heap w' !! l' = heap w !! l'.
Proof.
  unfold do_make_move, bind, read, lift, write, ret.
  destruct (heap w !! l) as [G|]; [|discriminate].
  destruct (make_move G row col) as [[b G']| |]; simpl; try discriminate.
  intros E l' Hne. injection E as _ <-. simpl.
  now rewrite list_lookup_insert_ne by congruence.
Qed.

(** C8: [minimax], [alpha_beta] and [get_best_move] do not modify the game
    object passed to them, nor any other object that existed before the
    call: after the call every such object holds the grid and the
    current-turn marker it held before.  A candidate move is made on a deep
    copy, which is an object that did not exist before, and [make_move] on
    the copy changes no other object, so branches share no board. *)
Theorem searches_do_not_mutate (fuel : nat) (G : TicTacToe) (g : loc)
    (w : world) :
  heap w !! g = Some G -> well_formed G -> (blanks G < fuel)%nat ->
  (forall depth turn,
     exists v w', minimax fuel g depth turn w = Done (v, w') /\
                  heap w' !! g = Some G /\ untouched w w') /\
  (forall depth alpha beta turn,
     exists v w', alpha_beta fuel g depth alpha beta turn w = Done (v, w') /\
                  heap w' !! g = Some G /\ untouched w w') /\
  (forall use_alpha_beta,
     exists m w', get_best_move fuel g use_alpha_beta w = Done (m, w') /\
                  heap w' !! g = Some G /\ untouched w w') /\
  (exists game_copy w1,
     deepcopy g w = Done (game_copy, w1) /\
     heap w !! game_copy = None /\ heap w1 !! game_copy = Some G /\
     untouched w w1 /\
     forall row col r w2,
       do_make_move game_copy row col w1 = Done (r, w2) ->
       forall l, l <> game_copy -> heap w2 !! l = heap w1 !! l).
Proof.
  intros Hg Hwf Hfuel. split; [|split; [|split]].
  - intros depth turn.
    destruct (minimax_refines fuel G g depth turn w Hg Hwf Hfuel)
      as (w' & Hrun & Hgr).
    exists (fst (mm fuel G turn)), w'.
    split; [exact Hrun|split; [|exact (grows_untouched _ _ _ _ Hgr)]].
    eapply grows_lookup; eassumption.
  - intros depth alpha beta turn.
    destruct (alpha_beta_refines fuel G g depth alpha beta turn w Hg Hwf
                Hfuel) as (w' & Hrun & Hgr).
    exists (fst (ab fuel G alpha beta turn)), w'.
    split; [exact Hrun|split; [|exact (grows_untouched _ _ _ _ Hgr)]].
    eapply grows_lookup; eassumption.
  - intros use_alpha_beta.
    destruct (get_best_move_refines use_alpha_beta fuel G g w Hg Hwf
                ltac:(lia)) as (w' & Hrun & Hgr).
    eexists _, w'.
    split; [exact Hrun|split; [|exact (grows_untouched _ _ _ _ Hgr)]].
    eapply grows_lookup; eassumption.
  - destruct (deepcopy_fresh g G w Hg) as (l & w1 & Hcp & Hnew & Hl & Hun).
    exists l, w1. repeat (split; [assumption|]).
    intros row col r w2 Hmv. now apply do_make_move_local with row col r.
Qed.

Lemma searches_do_not_mutate_witness :
  (forall depth turn,
     exists v w', minimax 4 0%nat depth turn (one_game late_game)
                  = Done (v, w') /\
                  heap w' !! 0%nat = Some late_game /\
                  untouched (one_game late_game) w') /\
  (forall depth alpha beta turn,
     exists v w', alpha_beta 4 0%nat depth alpha beta turn
                    (one_game late_game) = Done (v, w') /\
                  heap w' !! 0%nat = Some late_game /\
                  untouched (one_game late_game) w') /\
  (forall use_alpha_beta,
     exists m w', get_best_move 4 0%nat use_alpha_beta (one_game late_game)
                  = Done (m, w') /\
                  heap w' !! 0%nat = Some late_game /\
                  untouched (one_game late_game) w') /\
  (exists game_copy w1,
     deepcopy 0%nat (one_game late_game) = Done (game_copy, w1) /\
     heap (one_game late_game) !! game_copy = None /\
     heap w1 !! game_copy = Some late_game /\
     untouched (one_game late_game) w1 /\
     forall row col r w2,
       do_make_move game_copy row col w1 = Done (r, w2) ->
       forall l, l <> game_copy -> heap w2 !! l = heap w1 !! l).
Proof.
  apply (searches_do_not_mutate 4 late_game 0%nat (one_game late_game)).
  - reflexivity.
  - reflexivity.
  - vm_compute. lia.
Defined.

(** * The node counter of minimax *)

Lemma scan_count_total (f : TicTacToe -> ext * Z) (d : bool) (G : TicTacToe)
    (cells : list (Z * Z)) :
  forall acc n,
    snd (scan f d G cells acc n)
    = n + total (map (fun rc => snd (f (play G rc))) cells).
Proof.
  induction cells as [|rc cells IH]; intros acc n; simpl; [lia|].
  rewrite IH. lia.
Qed.

Lemma mm_count_tree (fuel : nat) :
  forall G d, snd (mm fuel G d) = tree_size fuel G.
Proof.
  induction fuel as [|fuel IH]; intros G d; simpl; [reflexivity|].
  destruct (over G); [reflexivity|].
  rewrite scan_count_total. do 2 f_equal.
  apply map_ext. intros rc. apply IH.
Qed.

Lemma compare_performance_runs (fuel : nat) (w : world) :
  (8 < fuel)%nat ->
  exists r w',
    compare_performance fuel w = Done (r, w') /\
    19025 < minimax_nodes r /\ alpha_beta_nodes r = 19025.
Proof.
  intros Hfuel. unfold compare_performance.
  set (g := length (heap w)).
  set (w1 := mkWorld (heap w ++ [new_game]) (ai w)).
  rewrite (bind_done new_object _ w w1 g eq_refl).
  set (w2 := mkWorld (heap w1) (mkTicTacToeAI 0 0)).
  rewrite (bind_done new_ai _ w1 w2 tt eq_refl).
  rewrite (bind_done reset_minimax _ w2 w2 tt eq_refl).
  assert (Hg : heap w2 !! g = Some new_game)
    by (unfold w2, w1, g; simpl; now rewrite list_lookup_middle).
  destruct (get_best_move_refines false fuel new_game g w2 Hg
              new_game_well_formed ltac:(rewrite new_game_blanks; lia))
    as (w3 & Hrun1 & Hgr1).
  rewrite (bind_done _ _ _ _ _ Hrun1).
  rewrite (bind_done get_ai _ w3 w3 (ai w3) eq_refl).
  set (w4 := mkWorld (heap w3)
               (mkTicTacToeAI (nodes_visited_minimax (ai w3)) 0)).
  rewrite (bind_done reset_alpha_beta _ w3 w4 tt eq_refl).
  assert (Hg4 : heap w4 !! g = Some new_game)
    by (change (heap w3 !! g = Some new_game);
        eapply grows_lookup; eassumption).
  destruct (get_best_move_refines true fuel new_game g w4 Hg4
              new_game_well_formed ltac:(rewrite new_game_blanks; lia))
    as (w5 & Hrun2 & Hgr2).
  rewrite (bind_done _ _ _ _ _ Hrun2).
  rewrite (bind_done get_ai _ w5 w5 (ai w5) eq_refl).
  destruct Hgr1 as (_ & Hm1 & _). destruct Hgr2 as (_ & _ & Ha2).
  unfold w2 in Hm1. unfold w4 in Ha2.
  cbn [ai nodes_visited_minimax nodes_visited_alpha_beta] in Hm1, Ha2.
  pose proof (opening_nodes fuel Hfuel) as Hlt.
  rewrite (choose_fuel true fuel 9 new_game new_game_well_formed) in Hlt, Ha2
    by (rewrite new_game_blanks; lia).
  rewrite opening_alpha_beta_nodes in Hlt, Ha2.
  unfold py_div.
  destruct (nodes_visited_minimax (ai w3) =? 0) eqn:E;
    [apply Z.eqb_eq in E; lia|].
  eexists _, w5. unfold bind, ret. split; [reflexivity|]. simpl. lia.
Qed.

(** C9: a call of [minimax] raises the minimax counter by one for itself and
    by what its recursive calls add, so by the size of the game tree below
    the position, which is at least 1; and the benchmark, which resets the
    counter and runs [get_best_move] without alpha-beta on a new game, ends
    with a minimax count of 1 or more, so the division in its
    node-reduction percentage is by a non-zero number and the report is
    produced. *)
Theorem minimax_counter_counts_calls (fuel : nat) (G : TicTacToe) (g : loc)
    (depth : Z) (turn : bool) (w : world) :
  heap w !! g = Some G -> well_formed G -> (blanks G < fuel)%nat ->
  (exists v w',
     minimax fuel g depth turn w = Done (v, w') /\
     nodes_visited_minimax (ai w')
       = nodes_visited_minimax (ai w) + tree_size fuel G /\
     1 <= tree_size fuel G) /\
  ((8 < fuel)%nat ->
   exists r w',
     compare_performance fuel w = Done (r, w') /\ 1 <= minimax_nodes r).
Proof.
  intros Hg Hwf Hfuel. split.
  - destruct (minimax_refines fuel G g depth turn w Hg Hwf Hfuel)
      as (w' & Hrun & _ & Hc & _).
    exists (fst (mm fuel G turn)), w'. rewrite <- (mm_count_tree fuel G turn).
    split; [exact Hrun|split; [exact Hc|]].
    destruct fuel as [|k]; [lia|apply mm_count_pos].
  - intros H8. destruct (compare_performance_runs fuel w H8)
      as (r & w' & Hrun & Hm & _).
    exists r, w'. split; [exact Hrun|lia].
Qed.

Lemma minimax_counter_counts_calls_witness :
  (exists v w',
     minimax 10 0%nat 0 true (one_game new_game) = Done (v, w') /\
     nodes_visited_minimax (ai w')
       = nodes_visited_minimax (ai (one_game new_game))
         + tree_size 10 new_game /\
     1 <= tree_size 10 new_game) /\
  ((8 < 10)%nat ->
   exists r w',
     compare_performance 10 (one_game new_game) = Done (r, w') /\
     1 <= minimax_nodes r).
Proof.
  apply (minimax_counter_counts_calls 10 new_game 0%nat 0 true
           (one_game new_game)).
  - reflexivity.
  - reflexivity.
  - vm_compute. lia.
Defined.

(** * get_best_move *)

Lemma ext_lt_trans (a b c : ext) :
  ext_lt a b = true -> ext_lt b c = true -> ext_lt a c = true.
Proof.
  destruct a, b, c; simpl; try discriminate; try reflexivity.
  rewrite !Z.ltb_lt. lia.
Qed.

Lemma ext_lt_below (a b c : ext) :
  ext_lt a b = true -> ext_lt c b = false -> ext_lt a c = true.
Proof.
  destruct a, b, c; simpl; try discriminate; try reflexivity.
  rewrite !Z.ltb_lt, Z.ltb_ge. lia.
Qed.

Lemma ext_lt_le (a b : ext) : ext_lt a b = true -> ext_le a b = true.
Proof.
  unfold ext_le. destruct a, b; simpl; try discriminate; try reflexivity.
  rewrite Z.ltb_lt, negb_true_iff, Z.ltb_ge. lia.
Qed.

(** What the loop of [get_best_move] selects: nothing new when no value is
    below the incumbent's, otherwise the first of the cells of least value. *)
Lemma choose_spec (value : TicTacToe -> ext * Z) (G : TicTacToe)
    (cells : list (Z * Z)) :
  let val := fun rc => fst (value (play G rc)) in
  forall bm bv n,
    let res := fst (choose value G cells bm bv n) in
    (res = bm /\ Forall (fun x => ext_lt (val x) bv = false) cells) \/
    (exists pre rc post,
       cells = pre ++ rc :: post /\ res = Some rc /\
       ext_lt (val rc) bv = true /\
       Forall (fun x => ext_lt (val rc) (val x) = true) pre /\
       Forall (fun x => ext_lt (val x) (val rc) = false) post).
Proof.
  intros val. induction cells as [|x cells IH]; intros bm bv n; simpl.
  - left. split; [reflexivity|constructor].
  - fold (val x). destruct (ext_lt (val x) bv) eqn:E.
    + right.
      destruct (IH (Some x) (val x) (n + snd (value (play G x))))
        as [[Hres Hall]|(pre & rc & post & -> & Hres & Hlt & Hpre & Hpost)].
      * exists [], x, cells. repeat split; auto.
      * exists (x :: pre), rc, post. repeat split; auto.
        eapply ext_lt_trans; eassumption.
    + destruct (IH bm bv (n + snd (value (play G x))))
        as [[Hres Hall]|(pre & rc & post & -> & Hres & Hlt & Hpre & Hpost)].
      * left. split; [exact Hres|now constructor].
      * right. exists (x :: pre), rc, post. repeat split; auto.
        constructor; [|exact Hpre]. eapply ext_lt_below; eassumption.
Qed.

Lemma all_cells_eq :
  all_cells = [(0, 0); (0, 1); (0, 2); (1, 0); (1, 1); (1, 2);
               (2, 0); (2, 1); (2, 2)].
Proof. reflexivity. Qed.

Lemma all_cells_sorted : StronglySorted rm_lt all_cells.
Proof.
  rewrite all_cells_eq.
  repeat (constructor; [|repeat constructor; unfold rm_lt; simpl; lia]).
  constructor.
Qed.

Lemma filter_sorted {A} (R : A -> A -> Prop) (p : A -> bool) (l : list A) :
  StronglySorted R l -> StronglySorted R (List.filter p l).
Proof.
  induction 1 as [|a l Hs IH Hall]; simpl; [constructor|].
  destruct (p a); [|exact IH]. constructor; [exact IH|].
  rewrite List.Forall_forall in *. intros x Hx.
  apply filter_In in Hx as [Hx _]. now apply Hall.
Qed.

Lemma moves_sorted (G : TicTacToe) :
  well_formed G -> StronglySorted rm_lt (moves G).
Proof.
  intros Hwf. rewrite (moves_filter G Hwf).
  apply filter_sorted, all_cells_sorted.
Qed.

Lemma filter_length_sum {A} (p : A -> bool) (l : list A) :
  length (List.filter p l)
  = sum_list (map (fun x => if p x then 1%nat else 0%nat) l).
Proof.
  induction l as [|x l IH]; simpl; [reflexivity|].
  destruct (p x); simpl; now rewrite IH.
Qed.

(** There are as many legal moves as blank cells. *)
Lemma moves_length (G : TicTacToe) :
  well_formed G -> length (moves G) = blanks G.
Proof.
  intros Hwf. rewrite (moves_filter G Hwf), filter_length_sum, all_cells_eq.
  grid G Hwf. unfold blanks.
  cbn [map concat board app].
  repeat match goal with
         | x : cell |- _ => destruct x as [|?]
         end; reflexivity.
Qed.

Lemma successor_value_done (use_alpha_beta : bool) (fuel : nat)
    (G : TicTacToe) (rc : Z * Z) :
  well_formed G -> (blanks G <= fuel)%nat -> rc ∈ moves G ->
  successor_value use_alpha_beta fuel G rc
  = Done (fst (value_of use_alpha_beta fuel (play G rc))).
Proof.
  intros Hwf Hfuel Hrc. unfold successor_value.
  rewrite (branch_run
             (fun gc => if use_alpha_beta
                        then alpha_beta fuel gc 0 NegInf PosInf true
                        else minimax fuel gc 0 true)
             G 0%nat rc (one_game G) eq_refl Hwf Hrc).
  destruct (value_of_call use_alpha_beta fuel G Hwf Hfuel rc (one_game G) Hrc)
    as (w' & Hrun & _).
  cbv beta. now rewrite Hrun.
Qed.

Lemma value_of_finite (use_alpha_beta : bool) (fuel : nat) (G : TicTacToe) :
  well_formed G -> (blanks G < fuel)%nat ->
  finite (fst (value_of use_alpha_beta fuel G)).
Proof.
  intros. unfold value_of.
  destruct use_alpha_beta; [now apply ab_finite|now apply mm_finite].
Qed.

(** C4: [get_best_move] returns [None] exactly when the board has no blank
    cell.  Otherwise it returns a legal move whose value (the chosen search
    run with [is_maximizing=True] on the board after the move) is the least
    among the legal moves, and every legal move before it in row-major order
    has a strictly greater value. *)
Theorem get_best_move_contract (fuel : nat) (use_alpha_beta : bool)
    (G : TicTacToe) (g : loc) (w : world) :
  heap w !! g = Some G -> well_formed G -> (blanks G <= fuel)%nat ->
  exists best w',
    get_best_move fuel g use_alpha_beta w = Done (best, w') /\
    (best = None <-> blanks G = 0%nat) /\
    (forall mv, best = Some mv ->
       exists cells v,
         get_empty_cells G = Done cells /\ mv ∈ cells /\
         successor_value use_alpha_beta fuel G mv = Done v /\
         forall mv', mv' ∈ cells ->
           exists v',
             successor_value use_alpha_beta fuel G mv' = Done v' /\
             ext_le v v' = true /\
             (rm_lt mv' mv -> ext_lt v v' = true)).
Proof.
  intros Hg Hwf Hfuel.
  destruct (get_best_move_refines use_alpha_beta fuel G g w Hg Hwf Hfuel)
    as (w' & Hrun & _).
  eexists _, w'. split; [exact Hrun|].
  set (val := fun rc => fst (value_of use_alpha_beta fuel (play G rc))).
  assert (Hfin : forall rc, rc ∈ moves G -> ext_lt (val rc) PosInf = true).
  { intros rc Hrc. destruct (play_spec G rc Hwf Hrc) as (_ & Hwf' & Hbl & _).
    pose proof (value_of_finite use_alpha_beta fuel (play G rc) Hwf'
                  ltac:(lia)) as Hf.
    unfold val. now destruct (fst (value_of use_alpha_beta fuel (play G rc))). }
  assert (Hcells : get_empty_cells G = Done (moves G))
    by (rewrite (moves_filter G Hwf); now apply get_empty_cells_done).
  pose proof (moves_length G Hwf) as Hlen.
  destruct (choose_spec (value_of use_alpha_beta fuel) G (moves G) None
              PosInf 0)
    as [[Hres Hall]|(pre & rc & post & Hsplit & Hres & Hlt & Hpre & Hpost)];
    rewrite Hres.
  - split.
    + split; [intros _|reflexivity].
      destruct (moves G) as [|rc cells] eqn:E; [simpl in Hlen; lia|].
      apply Forall_cons in Hall as [Hrc _].
      fold (val rc) in Hrc. rewrite Hfin in Hrc; [discriminate|].
      constructor.
    + discriminate.
  - split.
    + split; [discriminate|].
      intros H0. rewrite H0, Hsplit, length_app in Hlen. simpl in Hlen. lia.
    + intros mv E. injection E as <-.
      assert (Hin : rc ∈ moves G)
        by (rewrite Hsplit; apply elem_of_app; right; constructor).
      exists (moves G), (val rc).
      split; [exact Hcells|split; [exact Hin|split]].
      * now apply successor_value_done.
      * intros mv' Hmv'. exists (val mv').
        split; [now apply successor_value_done|].
        pose proof (moves_sorted G Hwf) as Hs. rewrite Hsplit in Hs, Hmv'.
        apply StronglySorted_app in Hs as (_ & _ & Hs).
        apply StronglySorted_inv in Hs as [_ Hafter].
        rewrite List.Forall_forall in Hpre, Hpost, Hafter.
        apply elem_of_app in Hmv' as [Hm|Hm].
        { apply list_elem_of_In in Hm.
          split; [apply ext_lt_le|intros _]; now apply Hpre. }
        apply elem_of_cons in Hm as [->|Hm].
        { split; [apply ext_le_refl|].
          unfold rm_lt. lia. }
        apply list_elem_of_In in Hm. split.
        { unfold ext_le, val. now rewrite (Hpost mv' Hm). }
        intros Hlt'. specialize (Hafter mv' Hm). unfold rm_lt in *. lia.
Qed.

Lemma get_best_move_contract_witness :
  exists best w',
    get_best_move 3 0%nat false (one_game late_game) = Done (best, w') /\
    (best = None <-> blanks late_game = 0%nat) /\
    (forall mv, best = Some mv ->
       exists cells v,
         get_empty_cells late_game = Done cells /\ mv ∈ cells /\
         successor_value false 3 late_game mv = Done v /\
         forall mv', mv' ∈ cells ->
           exists v',
             successor_value false 3 late_game mv' = Done v' /\
             ext_le v v' = true /\
             (rm_lt mv' mv -> ext_lt v v' = true)).
Proof.
  apply (get_best_move_contract 3 false late_game 0%nat
           (one_game late_game)).
  - reflexivity.
  - reflexivity.
  - vm_compute. lia.
Defined.

(** On [late_game] the three legal moves get the values 0, 1 and 1 from
    minimax, and the first is returned. *)
Example get_best_move_late_game :
  successor_value false 3 late_game (2, 0) = Done (Fin 0) /\
  successor_value false 3 late_game (2, 1) = Done (Fin 1) /\
  successor_value false 3 late_game (2, 2) = Done (Fin 1) /\
  (exists w', get_best_move 3 0%nat false (one_game late_game)
              = Done (Some (2, 0), w')).
Proof.
  repeat split; try reflexivity. eexists. vm_compute. reflexivity.
Qed.

(** * More about the board class *)

Lemma cell_eqb_mark (c : cell) (p : player) :
  cell_eqb c (Mark p) = true <-> c = Mark p.
Proof.
  destruct c as [|q]; simpl; [split; discriminate|].
  destruct q, p; simpl; split; intros; try discriminate; try reflexivity;
    congruence.
Qed.

Lemma is_winner_has_line (G : TicTacToe) (p : player) :
  well_formed G -> is_winner G p = Done (has_line G p).
Proof.
  intros H. grid G H. cbv -[cell_eqb]. split_ifs; reflexivity.
Qed.

Lemma lines_in_grid (l : list (Z * Z)) (rc : Z * Z) :
  l ∈ lines -> rc ∈ l -> in_grid (fst rc) (snd rc).
Proof.
  intros Hl Hrc. apply list_elem_of_In in Hl. apply list_elem_of_In in Hrc.
  unfold lines in Hl. simpl in Hl.
  repeat (destruct Hl as [<-|Hl];
          [simpl in Hrc;
           repeat (destruct Hrc as [<-|Hrc]; [unfold in_grid; simpl; lia|]);
           destruct Hrc|]).
  destruct Hl.
Qed.

Lemma has_line_filled (G : TicTacToe) (p : player) :
  has_line G p = true <-> exists l, l ∈ lines /\ filled G p l.
Proof.
  unfold has_line, filled. rewrite existsb_exists. split.
  - intros (l & Hl & Hall). exists l. split; [now apply list_elem_of_In|].
    intros rc Hrc. rewrite forallb_forall in Hall.
    specialize (Hall rc (proj1 (list_elem_of_In _ _) Hrc)).
    destruct (cell_at (board G) (fst rc) (snd rc)) as [c| |]; simpl in Hall;
      try discriminate.
    now apply cell_eqb_mark in Hall as ->.
  - intros (l & Hl & Hall). exists l. split; [now apply list_elem_of_In|].
    apply forallb_forall. intros rc Hrc. apply list_elem_of_In in Hrc.
    rewrite (Hall rc Hrc). simpl. now destruct p.
Qed.

(** X1: on a 3x3 board [is_winner(player)] raises nothing, and it returns
    [True] exactly when one of the eight lines (three rows, three columns,
    two diagonals) holds the mark of the player in all three cells. *)
Theorem is_winner_lines (G : TicTacToe) (p : player) :
  well_formed G ->
  exists b, is_winner G p = Done b /\
            (b = true <-> exists l, l ∈ lines /\ filled G p l).
Proof.
  intros H. exists (has_line G p).
  split; [now apply is_winner_has_line|apply has_line_filled].
Qed.

Lemma is_winner_lines_witness :
  exists b, is_winner late_game X = Done b /\
            (b = true <-> exists l, l ∈ lines /\ filled late_game X l).
Proof. apply (is_winner_lines late_game X). reflexivity. Defined.

Lemma follows_full_stays (G G' : TicTacToe) :
  follows G G' -> well_formed G -> blanks G = 0%nat -> G' = G.
Proof.
  induction 1 as [|G1 G2 row col Hf IH Hmv]; intros Hwf H0; [reflexivity|].
  rewrite (IH Hwf H0) in Hmv.
  destruct (make_move_true_inv G G2 row col Hmv) as [Hin Hb].
  assert (Hm : (row, col) ∈ moves G).
  { apply (in_moves G (row, col) Hwf). split.
    - apply in_grid_cases in Hin. rewrite all_cells_eq.
      apply list_elem_of_In. simpl.
      destruct Hin as [E|[E|[E|[E|[E|[E|[E|[E|E]]]]]]]]; rewrite E; tauto.
    - unfold blank_at. simpl. now rewrite Hb. }
  pose proof (moves_length G Hwf) as Hlen. rewrite H0 in Hlen.
  destruct (moves G); [inversion Hm|discriminate].
Qed.

Lemma is_game_over_cases (G : TicTacToe) :
  well_formed G ->
  is_game_over G
  = Done (has_line G X || has_line G O || is_board_full G).
Proof.
  intros Hwf. unfold is_game_over.
  rewrite !is_winner_has_line by assumption. simpl.
  destruct (has_line G X); [reflexivity|].
  destruct (has_line G O); reflexivity.
Qed.

Lemma full_iff_no_blanks (G : TicTacToe) :
  well_formed G -> (is_board_full G = true <-> blanks G = 0%nat).
Proof.
  intros Hwf. split; [|now apply full_no_blanks].
  grid G Hwf. unfold is_board_full, blanks. simpl.
  repeat match goal with x : cell |- _ => destruct x as [|?]; simpl end;
    intros; try discriminate; reflexivity.
Qed.

Lemma follows_keeps_line (G G' : TicTacToe) (p : player) :
  follows G G' -> well_formed G -> has_line G p = true ->
  has_line G' p = true.
Proof.
  intros Hf Hwf. rewrite !has_line_filled.
  intros (l & Hl & Hfill). exists l. split; [exact Hl|].
  intros rc Hrc. eapply follows_keeps_marks; eauto.
  eapply lines_in_grid; eassumption.
Qed.

(** X2: a win and the end of the game are permanent: if [is_winner(p)] is
    true, or [is_game_over()] is true, on a 3x3 board, it is still true after
    any further successful calls of [make_move]. *)
Theorem win_and_game_over_persist (G G' : TicTacToe) :
  well_formed G -> follows G G' ->
  (forall p, is_winner G p = Done true -> is_winner G' p = Done true) /\
  (is_game_over G = Done true -> is_game_over G' = Done true).
Proof.
  intros Hwf Hf. pose proof (follows_well_formed G G' Hf Hwf) as Hwf'.
  split.
  - intros p. rewrite !is_winner_has_line by assumption.
    intros E. injection E as E. f_equal.
    now apply (follows_keeps_line G G' p Hf Hwf).
  - rewrite !is_game_over_cases by assumption.
    intros E. injection E as E. f_equal.
    apply orb_true_iff in E as [E|E]; [apply orb_true_iff in E as [E|E]|].
    + now rewrite (follows_keeps_line G G' X Hf Hwf E).
    + rewrite (follows_keeps_line G G' O Hf Hwf E). now rewrite orb_true_r.
    + apply (full_iff_no_blanks G Hwf) in E as H0.
      rewrite (follows_full_stays G G' Hf Hwf H0), E.
      now rewrite orb_true_r.
Qed.

Lemma win_and_game_over_persist_witness :
  (forall p, is_winner x_has_won p = Done true ->
             is_winner (play x_has_won (1, 2)) p = Done true) /\
  (is_game_over x_has_won = Done true ->
   is_game_over (play x_has_won (1, 2)) = Done true).
Proof.
  apply (win_and_game_over_persist x_has_won (play x_has_won (1, 2))).
  - reflexivity.
  - eapply (follows_move _ _ _ 1 2); [apply follows_here|reflexivity].
Defined.

Lemma in_all_cells_grid (rc : Z * Z) :
  rc ∈ all_cells <-> in_grid (fst rc) (snd rc).
Proof.
  split.
  - intros H. apply in_all_cells in H. unfold in_grid.
    destruct H as [->|[->|[->|[->|[->|[->|[->|[->| ->]]]]]]]]; simpl; lia.
  - destruct rc as [r c]. simpl. intros H. apply in_grid_cases in H.
    rewrite all_cells_eq. apply list_elem_of_In. simpl.
    destruct H as [E|[E|[E|[E|[E|[E|[E|[E|E]]]]]]]]; rewrite E; tauto.
Qed.

Lemma blank_at_cell (G : TicTacToe) (rc : Z * Z) :
  blank_at G rc = true <-> cell_at (board G) (fst rc) (snd rc) = Done Blank.
Proof.
  unfold blank_at.
  destruct (cell_at (board G) (fst rc) (snd rc)) as [[|p]| |]; simpl;
    split; intros; try discriminate; reflexivity.
Qed.

Lemma in_moves_grid (G : TicTacToe) (row col : Z) :
  well_formed G ->
  ((row, col) ∈ moves G <->
   in_grid row col /\ cell_at (board G) row col = Done Blank).
Proof.
  intros Hwf. rewrite (in_moves G (row, col) Hwf).
  now rewrite in_all_cells_grid, blank_at_cell.
Qed.

(** X3: on a 3x3 board [get_empty_cells()] raises nothing and returns
    exactly the coordinates in 0..2 x 0..2 whose cell is blank, each once,
    in strictly increasing row-major order; there are as many as blank
    cells, and the list is empty exactly when [is_board_full()] is true. *)
Theorem get_empty_cells_exact (G : TicTacToe) :
  well_formed G ->
  exists cells,
    get_empty_cells G = Done cells /\
    (forall row col,
       (row, col) ∈ cells <->
       in_grid row col /\ cell_at (board G) row col = Done Blank) /\
    StronglySorted rm_lt cells /\
    length cells = blanks G /\
    (cells = [] <-> is_board_full G = true).
Proof.
  intros Hwf. exists (moves G).
  split; [rewrite (moves_filter G Hwf); now apply get_empty_cells_done|].
  split; [intros row col; now apply in_moves_grid|].
  split; [now apply moves_sorted|].
  pose proof (moves_length G Hwf) as Hlen. split; [exact Hlen|].
  rewrite (full_iff_no_blanks G Hwf), <- Hlen.
  destruct (moves G); simpl; split; intros; try discriminate; reflexivity.
Qed.

Lemma get_empty_cells_exact_witness :
  exists cells,
    get_empty_cells late_game = Done cells /\
    (forall row col,
       (row, col) ∈ cells <->
       in_grid row col /\ cell_at (board late_game) row col = Done Blank) /\
    StronglySorted rm_lt cells /\
    length cells = blanks late_game /\
    (cells = [] <-> is_board_full late_game = true).
Proof. apply (get_empty_cells_exact late_game). reflexivity. Defined.

Lemma make_move_is_play (G G' : TicTacToe) (row col : Z) :
  well_formed G -> make_move G row col = Done (true, G') ->
  (row, col) ∈ moves G /\ G' = play G (row, col).
Proof.
  intros Hwf Hmv.
  destruct (make_move_true_inv G G' row col Hmv) as [Hin Hb].
  assert (Hm : (row, col) ∈ moves G) by now apply in_moves_grid.
  split; [exact Hm|].
  destruct (play_spec G (row, col) Hwf Hm) as (Hp & _). simpl in Hp.
  rewrite Hmv in Hp. now injection Hp.
Qed.

Lemma filter_filter {A} (f g : A -> bool) (l : list A) :
  List.filter f (List.filter g l) = List.filter (fun x => g x && f x) l.
Proof.
  induction l as [|x l IH]; simpl; [reflexivity|].
  destruct (g x); simpl; [destruct (f x)|]; now rewrite IH.
Qed.

Lemma filter_ext_in' {A} (f g : A -> bool) (l : list A) :
  (forall x, x ∈ l -> f x = g x) -> List.filter f l = List.filter g l.
Proof.
  intros H. apply filter_ext_in. intros x Hx. apply H.
  now apply list_elem_of_In.
Qed.

Lemma filter_out_sorted (x : Z * Z) (pre post : list (Z * Z)) :
  StronglySorted rm_lt (pre ++ x :: post) ->
  List.filter (fun rc => negb (bool_decide (rc = x))) (pre ++ x :: post)
  = pre ++ post.
Proof.
  intros Hs. apply StronglySorted_app in Hs as (Hcross & _ & Hs).
  apply StronglySorted_inv in Hs as [_ Hpost].
  rewrite List.filter_app. simpl.
  rewrite bool_decide_true by reflexivity. simpl. f_equal.
  - rewrite <- (filter_ext_in' (fun _ => true)).
    + clear. induction pre as [|y l IH]; simpl; [reflexivity|now rewrite IH].
    + intros y Hy. symmetry. apply negb_true_iff, bool_decide_eq_false.
      intros ->. specialize (Hcross x x Hy ltac:(constructor)).
      unfold rm_lt in Hcross. lia.
  - rewrite <- (filter_ext_in' (fun _ => true)).
    + clear. induction post as [|y l IH]; simpl; [reflexivity|now rewrite IH].
    + intros y Hy. symmetry. apply negb_true_iff, bool_decide_eq_false.
      intros ->. rewrite List.Forall_forall in Hpost.
      specialize (Hpost x (proj1 (list_elem_of_In _ _) Hy)).
      unfold rm_lt in Hpost. lia.
Qed.

(** X4: a successful [make_move(row, col)] removes exactly [(row, col)]
    from what [get_empty_cells()] returns and leaves the other legal moves
    in their order. *)
Theorem make_move_removes_one_empty_cell (G G' : TicTacToe) (row col : Z) :
  well_formed G -> make_move G row col = Done (true, G') ->
  exists pre post,
    get_empty_cells G = Done (pre ++ (row, col) :: post) /\
    get_empty_cells G' = Done (pre ++ post).
Proof.
  intros Hwf Hmv.
  destruct (make_move_true_inv G G' row col Hmv) as [Hin Hb].
  destruct (make_move_inside G row col Hwf Hin Hb)
    as (G'' & Hmv' & Hwf' & _ & Hcell & Hrest & _).
  rewrite Hmv in Hmv'. injection Hmv' as <-.
  assert (Hm : (row, col) ∈ moves G) by now apply in_moves_grid.
  apply list_elem_of_split in Hm as (pre & post & Hsplit).
  exists pre, post.
  rewrite (get_empty_cells_done G Hwf), (get_empty_cells_done G' Hwf').
  rewrite <- (moves_filter G Hwf), Hsplit. split; [reflexivity|]. f_equal.
  rewrite <- (filter_out_sorted (row, col) pre post)
    by (rewrite <- Hsplit; now apply moves_sorted).
  rewrite <- Hsplit, (moves_filter G Hwf), filter_filter.
  apply filter_ext_in'. intros [r c] Hrc.
  apply in_all_cells_grid in Hrc. simpl in Hrc.
  destruct (bool_decide (((r, c) : Z * Z) = (row, col))) eqn:E.
  - apply bool_decide_eq_true in E. injection E as -> ->.
    rewrite andb_false_r. unfold blank_at. simpl. now rewrite Hcell.
  - apply bool_decide_eq_false in E. rewrite andb_true_r.
    unfold blank_at. simpl. now rewrite (Hrest r c Hrc E).
Qed.

Lemma make_move_removes_one_empty_cell_witness :
  exists pre post,
    get_empty_cells new_game = Done (pre ++ (1, 1) :: post) /\
    get_empty_cells (play new_game (1, 1)) = Done (pre ++ post).
Proof.
  apply (make_move_removes_one_empty_cell new_game (play new_game (1, 1)) 1 1);
    reflexivity.
Defined.

(** X5: a cell is taken once: after a successful [make_move(row, col)],
    on that board and on every board that follows it, [make_move(row, col)]
    returns [False] and changes nothing. *)
Theorem make_move_never_overwrites (G G' G'' : TicTacToe) (row col : Z) :
  well_formed G -> make_move G row col = Done (true, G') ->
  follows G' G'' ->
  make_move G'' row col = Done (false, G'').
Proof.
  intros Hwf Hmv Hf.
  destruct (make_move_true_inv G G' row col Hmv) as [Hin Hb].
  destruct (make_move_inside G row col Hwf Hin Hb)
    as (G1 & Hmv' & Hwf' & _ & Hcell & _).
  rewrite Hmv in Hmv'. injection Hmv' as <-.
  apply make_move_occupied with (current_player G).
  now apply (follows_keeps_marks G' G'' Hf Hwf').
Qed.

Lemma make_move_never_overwrites_witness :
  make_move (play (play new_game (1, 1)) (0, 0)) 1 1
  = Done (false, play (play new_game (1, 1)) (0, 0)).
Proof.
  apply (make_move_never_overwrites new_game (play new_game (1, 1))
           (play (play new_game (1, 1)) (0, 0)) 1 1).
  - reflexivity.
  - reflexivity.
  - eapply (follows_move _ _ _ 0 0); [apply follows_here|reflexivity].
Defined.

Lemma played_follows (n : nat) (G : TicTacToe) :
  played n G -> follows new_game G.
Proof.
  induction 1 as [|n G G' row col _ IH Hmv]; [apply follows_here|].
  eapply follows_move; eassumption.
Qed.

Lemma played_counts (n : nat) (G : TicTacToe) :
  played n G ->
  well_formed G /\
  (blanks G + n = 9)%nat /\
  mark_count X G = ((n + 1) / 2)%nat /\
  mark_count O G = (n / 2)%nat /\
  (current_player G = X <-> (n mod 2 = 0)%nat).
Proof.
  induction 1 as [|n G G' row col _ (Hwf & Hbl & Hx & Ho & Hturn) Hmv].
  - repeat split; auto.
  - destruct (make_move_is_play G G' row col Hwf Hmv) as [Hm ->].
    destruct (play_spec G (row, col) Hwf Hm) as (_ & Hwf' & Hbl' & _).
    destruct (make_move_true_inv _ _ _ _ Hmv) as [Hin Hb].
    destruct (make_move_inside G row col Hwf Hin Hb)
      as (G1 & Hmv' & _ & Ht & _ & _ & Hc1 & Hc2).
    rewrite Hmv in Hmv'. injection Hmv' as <-.
    split; [exact Hwf'|]. split; [lia|]. rewrite Ht.
    pose proof (Nat.div_mod_eq n 2).
    pose proof (Nat.div_mod_eq (n + 1) 2).
    pose proof (Nat.div_mod_eq (S n) 2).
    pose proof (Nat.div_mod_eq (S n + 1) 2).
    pose proof (Nat.mod_upper_bound n 2 ltac:(lia)).
    pose proof (Nat.mod_upper_bound (n + 1) 2 ltac:(lia)).
    pose proof (Nat.mod_upper_bound (S n) 2 ltac:(lia)).
    pose proof (Nat.mod_upper_bound (S n + 1) 2 ltac:(lia)).
    destruct (current_player G); cbn [other] in *.
    + assert (n mod 2 = 0)%nat by now apply Hturn.
      repeat split; try lia; try discriminate.
    + assert (n mod 2 <> 0)%nat
        by (intros E; apply Hturn in E; discriminate).
      repeat split; try lia; try reflexivity.
Qed.

(** X6: after [n] successful moves from a new game there are [9 - n] blank
    cells, X has made [(n + 1) / 2] marks and O [n / 2], and X is to move
    exactly when [n] is even.  So no game has more than nine successful
    moves, and after the ninth the board is full, [is_game_over()] is true
    and every further [make_move] returns [False]. *)
Theorem move_count_determines_marks (n : nat) (G : TicTacToe) :
  played n G ->
  (n <= 9)%nat /\
  (blanks G = 9 - n)%nat /\
  mark_count X G = ((n + 1) / 2)%nat /\
  mark_count O G = (n / 2)%nat /\
  (current_player G = X <-> (n mod 2 = 0)%nat) /\
  (n = 9%nat ->
   is_board_full G = true /\ is_game_over G = Done true /\
   forall row col, make_move G row col = Done (false, G)).
Proof.
  intros Hp. destruct (played_counts n G Hp) as (Hwf & Hbl & Hx & Ho & Ht).
  repeat (split; [first [assumption|lia]|]).
  intros ->. assert (H0 : blanks G = 0%nat) by lia.
  pose proof (full_no_blanks G Hwf H0) as Hfull.
  split; [exact Hfull|split].
  - rewrite (is_game_over_cases G Hwf), Hfull. now rewrite orb_true_r.
  - intros row col.
    assert (Hdec : in_grid row col \/ ~ in_grid row col)
      by (unfold in_grid; lia).
    destruct Hdec as [Hin|Hout]; [|now apply make_move_outside].
    destruct (cell_at_done G row col Hwf Hin) as ([|p] & Hc);
      [|now apply make_move_occupied with p].
    assert (Hm : (row, col) ∈ moves G) by now apply in_moves_grid.
    pose proof (moves_length G Hwf) as Hlen. rewrite H0 in Hlen.
    destruct (moves G); [inversion Hm|discriminate].
Qed.

Lemma move_count_determines_marks_witness :
  (2 <= 9)%nat /\
  (blanks two_moves = 9 - 2)%nat /\
  mark_count X two_moves = ((2 + 1) / 2)%nat /\
  mark_count O two_moves = (2 / 2)%nat /\
  (current_player two_moves = X <-> (2 mod 2 = 0)%nat) /\
  (2%nat = 9%nat ->
   is_board_full two_moves = true /\ is_game_over two_moves = Done true /\
   forall row col, make_move two_moves row col = Done (false, two_moves)).
Proof.
  apply (move_count_determines_marks 2 two_moves).
  eapply (played_more _ _ _ 0 0);
    [eapply (played_more _ _ _ 1 1); [apply played_none|]|];
    reflexivity.
Defined.

(** * More about the searches *)

(** X7: [evaluate(game)] changes neither the store nor the counters; it
    returns 1 when X has a line, -1 when O has a line and X has none, and 0
    otherwise; a non-zero result is returned only for a game that is over. *)
Theorem evaluate_contract (G : TicTacToe) (g : loc) (w : world) :
  heap w !! g = Some G -> well_formed G ->
  exists v,
    evaluate g w = Done (v, w) /\
    (v = 1 <-> is_winner G X = Done true) /\
    (v = -1 <-> is_winner G X = Done false /\ is_winner G O = Done true) /\
    (v = 0 <-> is_winner G X = Done false /\ is_winner G O = Done false) /\
    (v <> 0 -> is_game_over G = Done true).
Proof.
  intros Hg Hwf. exists (score G). split; [now apply evaluate_done|].
  rewrite (is_game_over_cases G Hwf), !is_winner_has_line by assumption.
  unfold score. rewrite !is_winner_has_line by assumption. simpl.
  destruct (has_line G X), (has_line G O); simpl;
    repeat split; intros; try lia; try discriminate; try reflexivity;
    try tauto;
    match goal with H : _ /\ _ |- _ => destruct H; discriminate end.
Qed.

Lemma evaluate_contract_witness :
  exists v,
    evaluate 0%nat (one_game late_game) = Done (v, one_game late_game) /\
    (v = 1 <-> is_winner late_game X = Done true) /\
    (v = -1 <-> is_winner late_game X = Done false /\
                is_winner late_game O = Done true) /\
    (v = 0 <-> is_winner late_game X = Done false /\
               is_winner late_game O = Done false) /\
    (v <> 0 -> is_game_over late_game = Done true).
Proof.
  apply (evaluate_contract late_game 0%nat (one_game late_game));
    reflexivity.
Defined.

(** X8: on a game that is over both searches stop at once: they return
    what [evaluate] returns, add exactly one to their own counter, and
    leave the store as it is (no copy is made), whatever the depth, the
    flag and the window. *)
Theorem searches_stop_at_a_finished_game (fuel : nat) (G : TicTacToe)
    (g : loc) (depth : Z) (alpha beta : ext) (turn : bool) (w : world) :
  heap w !! g = Some G -> well_formed G -> is_game_over G = Done true ->
  exists v,
    evaluate g w = Done (v, w) /\
    minimax (S fuel) g depth turn w
    = Done (Fin v,
            mkWorld (heap w)
              (mkTicTacToeAI (nodes_visited_minimax (ai w) + 1)
                             (nodes_visited_alpha_beta (ai w)))) /\
    alpha_beta (S fuel) g depth alpha beta turn w
    = Done (Fin v,
            mkWorld (heap w)
              (mkTicTacToeAI (nodes_visited_minimax (ai w))
                             (nodes_visited_alpha_beta (ai w) + 1))).
Proof.
  intros Hg Hwf Hov. exists (score G).
  split; [now apply evaluate_done|split].
  - set (w1 := mkWorld (heap w)
                 (mkTicTacToeAI (nodes_visited_minimax (ai w) + 1)
                                (nodes_visited_alpha_beta (ai w)))).
    assert (Hg1 : heap w1 !! g = Some G) by exact Hg.
    cbn [minimax].
    rewrite (bind_done count_minimax _ w w1 tt eq_refl).
    rewrite (bind_done _ _ _ _ _ (query_done g is_game_over w1 G _ Hg1 Hov)).
    now rewrite (bind_done _ _ _ _ _ (evaluate_done g w1 G Hg1 Hwf)).
  - set (w1 := mkWorld (heap w)
                 (mkTicTacToeAI (nodes_visited_minimax (ai w))
                                (nodes_visited_alpha_beta (ai w) + 1))).
    assert (Hg1 : heap w1 !! g = Some G) by exact Hg.
    cbn [alpha_beta].
    rewrite (bind_done count_alpha_beta _ w w1 tt eq_refl).
    rewrite (bind_done _ _ _ _ _ (query_done g is_game_over w1 G _ Hg1 Hov)).
    now rewrite (bind_done _ _ _ _ _ (evaluate_done g w1 G Hg1 Hwf)).
Qed.

Lemma searches_stop_at_a_finished_game_witness :
  exists v,
    evaluate 0%nat (one_game x_has_won) = Done (v, one_game x_has_won) /\
    minimax 1 0%nat 0 true (one_game x_has_won)
    = Done (Fin v,
            mkWorld (heap (one_game x_has_won))
              (mkTicTacToeAI
                 (nodes_visited_minimax (ai (one_game x_has_won)) + 1)
                 (nodes_visited_alpha_beta (ai (one_game x_has_won))))) /\
    alpha_beta 1 0%nat 0 NegInf PosInf true (one_game x_has_won)
    = Done (Fin v,
            mkWorld (heap (one_game x_has_won))
              (mkTicTacToeAI
                 (nodes_visited_minimax (ai (one_game x_has_won)))
                 (nodes_visited_alpha_beta (ai (one_game x_has_won)) + 1))).
Proof.
  apply (searches_stop_at_a_finished_game 0 x_has_won 0%nat 0 NegInf PosInf
           true (one_game x_has_won)); reflexivity.
Defined.

Lemma ai_eq (a b : TicTacToeAI) :
  nodes_visited_minimax a = nodes_visited_minimax b ->
  nodes_visited_alpha_beta a = nodes_visited_alpha_beta b -> a = b.
Proof. destruct a, b; simpl; now intros -> ->. Qed.

(** X9: the [depth] argument is ignored: two calls of [minimax] that differ
    only in [depth] return the same value and leave the same counters, and
    so do two such calls of [alpha_beta]. *)
Theorem depth_is_ignored (fuel : nat) (G : TicTacToe) (g : loc)
    (depth depth' : Z) (alpha beta : ext) (turn : bool) (w : world) :
  heap w !! g = Some G -> well_formed G -> (blanks G < fuel)%nat ->
  (exists v w1 w2,
     minimax fuel g depth turn w = Done (v, w1) /\
     minimax fuel g depth' turn w = Done (v, w2) /\ ai w1 = ai w2) /\
  (exists v w1 w2,
     alpha_beta fuel g depth alpha beta turn w = Done (v, w1) /\
     alpha_beta fuel g depth' alpha beta turn w = Done (v, w2) /\
     ai w1 = ai w2).
Proof.
  intros Hg Hwf Hfuel. split.
  - destruct (minimax_refines fuel G g depth turn w Hg Hwf Hfuel)
      as (w1 & H1 & _ & Hm1 & Ha1).
    destruct (minimax_refines fuel G g depth' turn w Hg Hwf Hfuel)
      as (w2 & H2 & _ & Hm2 & Ha2).
    eexists _, w1, w2. split; [exact H1|split; [exact H2|]].
    apply ai_eq; lia.
  - destruct (alpha_beta_refines fuel G g depth alpha beta turn w Hg Hwf
                Hfuel) as (w1 & H1 & _ & Hm1 & Ha1).
    destruct (alpha_beta_refines fuel G g depth' alpha beta turn w Hg Hwf
                Hfuel) as (w2 & H2 & _ & Hm2 & Ha2).
    eexists _, w1, w2. split; [exact H1|split; [exact H2|]].
    apply ai_eq; lia.
Qed.

Lemma depth_is_ignored_witness :
  (exists v w1 w2,
     minimax 4 0%nat 0 true (one_game late_game) = Done (v, w1) /\
     minimax 4 0%nat 7 true (one_game late_game) = Done (v, w2) /\
     ai w1 = ai w2) /\
  (exists v w1 w2,
     alpha_beta 4 0%nat 0 NegInf PosInf true (one_game late_game)
     = Done (v, w1) /\
     alpha_beta 4 0%nat 7 NegInf PosInf true (one_game late_game)
     = Done (v, w2) /\
     ai w1 = ai w2).
Proof.
  apply (depth_is_ignored 4 late_game 0%nat 0 7 NegInf PosInf true
           (one_game late_game)).
  - reflexivity.
  - reflexivity.
  - vm_compute. lia.
Defined.

(** X10: each search counts in its own counter only: [minimax] leaves
    [nodes_visited_alpha_beta] as it was, [alpha_beta] leaves
    [nodes_visited_minimax] as it was, and [get_best_move] changes only the
    counter of the strategy it was asked to use. *)
Theorem searches_count_separately (fuel : nat) (G : TicTacToe) (g : loc)
    (depth : Z) (alpha beta : ext) (turn : bool) (w : world) :
  heap w !! g = Some G -> well_formed G -> (blanks G < fuel)%nat ->
  (exists v w', minimax fuel g depth turn w = Done (v, w') /\
     nodes_visited_alpha_beta (ai w') = nodes_visited_alpha_beta (ai w)) /\
  (exists v w', alpha_beta fuel g depth alpha beta turn w = Done (v, w') /\
     nodes_visited_minimax (ai w') = nodes_visited_minimax (ai w)) /\
  (exists m w', get_best_move fuel g false w = Done (m, w') /\
     nodes_visited_alpha_beta (ai w') = nodes_visited_alpha_beta (ai w)) /\
  (exists m w', get_best_move fuel g true w = Done (m, w') /\
     nodes_visited_minimax (ai w') = nodes_visited_minimax (ai w)).
Proof.
  intros Hg Hwf Hfuel. split; [|split; [|split]].
  - destruct (minimax_refines fuel G g depth turn w Hg Hwf Hfuel)
      as (w' & H1 & _ & _ & Ha). eexists _, w'. split; [exact H1|lia].
  - destruct (alpha_beta_refines fuel G g depth alpha beta turn w Hg Hwf
                Hfuel) as (w' & H1 & _ & Hm & _).
    eexists _, w'. split; [exact H1|lia].
  - destruct (get_best_move_refines false fuel G g w Hg Hwf ltac:(lia))
      as (w' & H1 & _ & _ & Ha). eexists _, w'. split; [exact H1|lia].
  - destruct (get_best_move_refines true fuel G g w Hg Hwf ltac:(lia))
      as (w' & H1 & _ & Hm & _). eexists _, w'. split; [exact H1|lia].
Qed.

Lemma searches_count_separately_witness :
  (exists v w', minimax 4 0%nat 0 true (one_game late_game) = Done (v, w') /\
     nodes_visited_alpha_beta (ai w')
     = nodes_visited_alpha_beta (ai (one_game late_game))) /\
  (exists v w', alpha_beta 4 0%nat 0 NegInf PosInf true (one_game late_game)
                = Done (v, w') /\
     nodes_visited_minimax (ai w')
     = nodes_visited_minimax (ai (one_game late_game))) /\
  (exists m w', get_best_move 4 0%nat false (one_game late_game)
                = Done (m, w') /\
     nodes_visited_alpha_beta (ai w')
     = nodes_visited_alpha_beta (ai (one_game late_game))) /\
  (exists m w', get_best_move 4 0%nat true (one_game late_game)
                = Done (m, w') /\
     nodes_visited_minimax (ai w')
     = nodes_visited_minimax (ai (one_game late_game))).
Proof.
  apply (searches_count_separately 4 late_game 0%nat 0 NegInf PosInf true
           (one_game late_game)).
  - reflexivity.
  - reflexivity.
  - vm_compute. lia.
Defined.

Lemma le_new_max (a r : ext) :
  bounded a -> bounded r -> ext_le r (py_max a r) = true.
Proof. ext_lia. Qed.

Lemma le_new_min (a r : ext) :
  bounded a -> bounded r -> ext_le (py_min a r) r = true.
Proof. ext_lia. Qed.

Lemma scan_attained (f : TicTacToe -> ext * Z) (d : bool) (G : TicTacToe)
    (cells : list (Z * Z)) :
  forall acc n,
    fst (scan f d G cells acc n) = acc \/
    exists rc, rc ∈ cells /\
               fst (scan f d G cells acc n) = fst (f (play G rc)).
Proof.
  induction cells as [|x cells IH]; intros acc n; simpl; [now left|].
  destruct (IH (pick d acc (fst (f (play G x)))) (n + snd (f (play G x))))
    as [E|(rc & Hrc & E)].
  - rewrite E. destruct d; simpl.
    + destruct (py_max_spec acc (fst (f (play G x)))) as [[_ ->]|[_ ->]];
        [right; exists x; split; [constructor|reflexivity]|now left].
    + destruct (py_min_spec acc (fst (f (play G x)))) as [[_ ->]|[_ ->]];
        [right; exists x; split; [constructor|reflexivity]|now left].
  - right. exists rc. split; [now constructor|exact E].
Qed.

Lemma scan_dominates (f : TicTacToe -> ext * Z) (d : bool) (G : TicTacToe)
    (cells : list (Z * Z)) :
  (forall G', bounded (fst (f G'))) ->
  forall acc n rc,
    bounded acc -> rc ∈ cells ->
    (if d then ext_le (fst (f (play G rc))) (fst (scan f d G cells acc n))
     else ext_le (fst (scan f d G cells acc n)) (fst (f (play G rc))))
    = true.
Proof.
  intros Hf. induction cells as [|x cells IH]; intros acc n rc Hacc Hrc;
    [inversion Hrc|].
  simpl. apply elem_of_cons in Hrc as [->|Hrc].
  - destruct d; simpl.
    + eapply ext_le_trans;
        [| | |apply (le_new_max acc (fst (f (play G x))))
         |apply (scan_above G f Hf)];
        auto using scan_bounded with scores.
    + eapply ext_le_trans;
        [| | |apply (scan_below G f Hf)
         |apply (le_new_min acc (fst (f (play G x))))];
        auto using scan_bounded with scores.
  - apply IH; auto with scores.
Qed.

Lemma child_value_done (fuel : nat) (G : TicTacToe) (rc : Z * Z)
    (depth : Z) (turn : bool) :
  well_formed G -> (blanks G <= fuel)%nat -> rc ∈ moves G ->
  child_value fuel G rc depth turn
  = Done (fst (mm fuel (play G rc) turn)).
Proof.
  intros Hwf Hfuel Hrc. unfold child_value.
  rewrite (branch_run (fun gc => minimax fuel gc depth turn)
             G 0%nat rc (one_game G) eq_refl Hwf Hrc).
  destruct (play_spec G rc Hwf Hrc) as (_ & Hwf' & Hbl & _).
  destruct (minimax_refines fuel (play G rc) (length (heap (one_game G)))
              depth turn (branch (one_game G) G rc)
              (branch_lookup _ _ _) Hwf' ltac:(lia)) as (w' & Hrun & _).
  cbv beta. now rewrite Hrun.
Qed.

(** X11: on a game that is not over, [minimax] with the maximizing flag
    returns the largest of the values [minimax] returns, with the flag
    cleared and [depth + 1], on the copies made for the legal moves: some
    legal move has that value and none has a larger one.  With the flag
    cleared it returns the smallest of the values for the flag set. *)
Theorem minimax_is_the_best_successor (fuel : nat) (G : TicTacToe) (g : loc)
    (depth : Z) (turn : bool) (w : world) :
  heap w !! g = Some G -> well_formed G -> (blanks G < fuel)%nat ->
  is_game_over G = Done false ->
  exists v w' cells,
    minimax fuel g depth turn w = Done (v, w') /\
    get_empty_cells G = Done cells /\
    (exists rc, rc ∈ cells /\
       child_value fuel G rc (depth + 1) (negb turn) = Done v) /\
    (forall rc, rc ∈ cells ->
       exists u, child_value fuel G rc (depth + 1) (negb turn) = Done u /\
                 (if turn then ext_le u v else ext_le v u) = true).
Proof.
  intros Hg Hwf Hfuel Hov.
  destruct (minimax_refines fuel G g depth turn w Hg Hwf Hfuel)
    as (w' & Hrun & _).
  exists (fst (mm fuel G turn)), w', (moves G).
  split; [exact Hrun|].
  split; [rewrite (moves_filter G Hwf); now apply get_empty_cells_done|].
  assert (Hchild : forall rc, rc ∈ moves G ->
            child_value fuel G rc (depth + 1) (negb turn)
            = Done (fst (mm (Nat.pred fuel) (play G rc) (negb turn)))).
  { intros rc Hrc. rewrite child_value_done by (auto; lia). do 2 f_equal.
    destruct (play_spec G rc Hwf Hrc) as (_ & Hwf' & Hbl & _).
    apply mm_fuel; [exact Hwf'|lia|lia]. }
  pose proof (mm_finite fuel G turn Hwf Hfuel) as Hfin.
  destruct fuel as [|k]; [lia|]. simpl Nat.pred in Hchild.
  assert (Hov' : over G = false)
    by (pose proof (is_game_over_done G Hwf) as E; rewrite Hov in E;
        now injection E).
  simpl in Hfin |- *. rewrite Hov' in Hfin |- *.
  split.
  - destruct (scan_attained (fun G' => mm k G' (negb turn)) turn G (moves G)
                (worst turn) 1) as [E|(rc & Hrc & E)].
    + rewrite E in Hfin. now destruct turn.
    + exists rc. split; [exact Hrc|]. rewrite (Hchild rc Hrc). now rewrite E.
  - intros rc Hrc. eexists. split; [apply (Hchild rc Hrc)|].
    apply (scan_dominates (fun G' => mm k G' (negb turn)) turn G (moves G)
             (fun G' => mm_bounded k G' (negb turn)) (worst turn) 1 rc
             (bounded_worst turn) Hrc).
Qed.

Lemma minimax_is_the_best_successor_witness :
  exists v w' cells,
    minimax 4 0%nat 0 true (one_game late_game) = Done (v, w') /\
    get_empty_cells late_game = Done cells /\
    (exists rc, rc ∈ cells /\
       child_value 4 late_game rc (0 + 1) (negb true) = Done v) /\
    (forall rc, rc ∈ cells ->
       exists u, child_value 4 late_game rc (0 + 1) (negb true) = Done u /\
                 (if true then ext_le u v else ext_le v u) = true).
Proof.
  apply (minimax_is_the_best_successor 4 late_game 0%nat 0 true
           (one_game late_game)).
  - reflexivity.
  - reflexivity.
  - vm_compute. lia.
  - reflexivity.
Defined.

(** X12: what [alpha_beta] returns under a window other than the full one.
    For a window [alpha < beta] whose bounds are infinities or game values,
    the result [r] is a game value that locates the minimax value [v]:
    if [r <= alpha] then [v <= r], if [r >= beta] then [v >= r], and if
    [alpha < r < beta] then [v = r]. *)
Theorem alpha_beta_window (fuel : nat) (G : TicTacToe) (g : loc)
    (depth : Z) (alpha beta : ext) (turn : bool) (w : world) :
  heap w !! g = Some G -> well_formed G -> (blanks G < fuel)%nat ->
  bounded alpha -> bounded beta -> ext_lt alpha beta = true ->
  exists v r w1 w2,
    minimax fuel g depth turn w = Done (v, w1) /\
    alpha_beta fuel g depth alpha beta turn w = Done (r, w2) /\
    is_score r /\
    (ext_le r alpha = true -> ext_le v r = true) /\
    (ext_le beta r = true -> ext_le r v = true) /\
    (ext_lt alpha r = true -> ext_lt r beta = true -> v = r).
Proof.
  intros Hg Hwf Hfuel Ha Hb Hlt.
  destruct (minimax_refines fuel G g depth turn w Hg Hwf Hfuel)
    as (w1 & H1 & _).
  destruct (alpha_beta_refines fuel G g depth alpha beta turn w Hg Hwf
              Hfuel) as (w2 & H2 & _).
  eexists _, _, w1, w2. split; [exact H1|split; [exact H2|]].
  split; [apply finite_bounded_score;
          [now apply ab_finite|apply ab_bounded]|].
  exact (ab_sound fuel G alpha beta turn Ha Hb Hlt).
Qed.

Lemma alpha_beta_window_witness :
  exists v r w1 w2,
    minimax 4 0%nat 0 true (one_game late_game) = Done (v, w1) /\
    alpha_beta 4 0%nat 0 (Fin (-1)) (Fin 0) true (one_game late_game)
    = Done (r, w2) /\
    is_score r /\
    (ext_le r (Fin (-1)) = true -> ext_le v r = true) /\
    (ext_le (Fin 0) r = true -> ext_le r v = true) /\
    (ext_lt (Fin (-1)) r = true -> ext_lt r (Fin 0) = true -> v = r).
Proof.
  apply (alpha_beta_window 4 late_game 0%nat 0 (Fin (-1)) (Fin 0) true
           (one_game late_game)).
  - reflexivity.
  - reflexivity.
  - vm_compute. lia.
  - simpl. lia.
  - simpl. lia.
  - reflexivity.
Defined.

Lemma choose_same_values (f g : TicTacToe -> ext * Z) (G : TicTacToe)
    (cells : list (Z * Z)) :
  (forall rc, rc ∈ cells -> fst (f (play G rc)) = fst (g (play G rc))) ->
  forall bm bv n n',
    fst (choose f G cells bm bv n) = fst (choose g G cells bm bv n').
Proof.
  induction cells as [|rc cells IH]; intros Hfg bm bv n n'; simpl;
    [reflexivity|].
  rewrite (Hfg rc) by constructor.
  destruct (ext_lt _ _); apply IH; intros rc' Hin; apply Hfg;
    now constructor.
Qed.

Lemma choose_either_strategy (fuel : nat) (G : TicTacToe) :
  fst (choose (value_of true fuel) G (moves G) None PosInf 0)
  = fst (choose (value_of false fuel) G (moves G) None PosInf 0).
Proof.
  apply choose_same_values. intros rc _. unfold value_of. apply ab_full.
Qed.

(** X13: the two strategies select the same move: [get_best_move] returns
    the same result with [use_alpha_beta=True] as with
    [use_alpha_beta=False]. *)
Theorem strategies_select_the_same_move (fuel : nat) (G : TicTacToe)
    (g : loc) (w : world) :
  heap w !! g = Some G -> well_formed G -> (blanks G <= fuel)%nat ->
  exists best w1 w2,
    get_best_move fuel g false w = Done (best, w1) /\
    get_best_move fuel g true w = Done (best, w2).
Proof.
  intros Hg Hwf Hfuel.
  destruct (get_best_move_refines false fuel G g w Hg Hwf Hfuel)
    as (w1 & H1 & _).
  destruct (get_best_move_refines true fuel G g w Hg Hwf Hfuel)
    as (w2 & H2 & _).
  eexists _, w1, w2. split; [exact H1|].
  rewrite H2. now rewrite choose_either_strategy.
Qed.

Lemma strategies_select_the_same_move_witness :
  exists best w1 w2,
    get_best_move 3 0%nat false (one_game late_game) = Done (best, w1) /\
    get_best_move 3 0%nat true (one_game late_game) = Done (best, w2).
Proof.
  apply (strategies_select_the_same_move 3 late_game 0%nat
           (one_game late_game)).
  - reflexivity.
  - reflexivity.
  - vm_compute. lia.
Defined.

(** * The interactive game *)

Lemma string_app_assoc (a b c : string) : (a +:+ b) +:+ c = a +:+ b +:+ c.
Proof.
  induction a as [|x a IH]; [reflexivity|].
  change (String x ((a +:+ b) +:+ c) = String x (a +:+ b +:+ c)).
  now rewrite IH.
Qed.

Lemma string_app_empty (a : string) : a +:+ EmptyString = a.
Proof.
  induction a as [|x a IH]; [reflexivity|].
  change (String x (a +:+ EmptyString) = String x a). now rewrite IH.
Qed.

Lemma do_make_move_done (g : loc) (row col : Z) (w : world)
    (G G' : TicTacToe) (ok : bool) :
  heap w !! g = Some G -> make_move G row col = Done (ok, G') ->
  exists w', do_make_move g row col w = Done (ok, w') /\
             heap w' !! g = Some G' /\ ai w' = ai w /\
             length (heap w') = length (heap w).
Proof.
  intros Hg Hmv. exists (mkWorld (<[g := G']> (heap w)) (ai w)).
  unfold do_make_move, bind, read, lift, write, ret.
  rewrite Hg, Hmv. simpl. split; [reflexivity|split; [|split]].
  - apply list_lookup_insert_eq. now apply lookup_lt_Some with G.
  - reflexivity.
  - apply length_insert.
Qed.

Lemma make_move_total (G : TicTacToe) (row col : Z) :
  well_formed G ->
  ((row, col) ∈ moves G /\
   make_move G row col = Done (true, play G (row, col))) \/
  make_move G row col = Done (false, G).
Proof.
  intros Hwf.
  assert (Hdec : in_grid row col \/ ~ in_grid row col)
    by (unfold in_grid; lia).
  destruct Hdec as [Hin|Hout]; [|right; now apply make_move_outside].
  destruct (cell_at_done G row col Hwf Hin) as ([|p] & Hc);
    [|right; now apply make_move_occupied with p].
  left. assert (Hm : (row, col) ∈ moves G) by now apply in_moves_grid.
  split; [exact Hm|]. now destruct (play_spec G (row, col) Hwf Hm).
Qed.

Lemma ai_reply_legal (G : TicTacToe) (m : Z * Z) :
  ai_reply G = Some m -> m ∈ moves G.
Proof.
  unfold ai_reply. intros E.
  destruct (choose_spec (value_of true 9) G (moves G) None PosInf 0)
    as [[Hres _]|(pre & rc & post & Hsplit & Hres & _)].
  - rewrite Hres in E. discriminate.
  - rewrite Hres in E. injection E as <-. rewrite Hsplit.
    apply elem_of_app. right. constructor.
Qed.

Lemma get_best_move_is_ai_reply (fuel : nat) (G : TicTacToe) (g : loc)
    (w : world) :
  (8 < fuel)%nat -> heap w !! g = Some G -> well_formed G ->
  exists w', get_best_move fuel g false w = Done (ai_reply G, w') /\
             heap w' !! g = Some G.
Proof.
  intros Hfuel Hg Hwf. pose proof (blanks_bound G Hwf) as Hb.
  destruct (get_best_move_refines false fuel G g w Hg Hwf ltac:(lia))
    as (w' & Hrun & Hgr).
  exists w'. split; [|eapply grows_lookup; eassumption].
  rewrite Hrun. do 2 f_equal. unfold ai_reply.
  rewrite <- (choose_either_strategy fuel G).
  now rewrite (choose_fuel true fuel 9 G Hwf) by lia.
Qed.

Lemma over_has_line (n : nat) (G : TicTacToe) :
  over G = true -> x_cannot_win n G = true -> has_line G X = false.
Proof.
  intros Hov. destruct n; simpl; rewrite Hov; apply negb_true_iff.
Qed.

(** The human has moved. *)
Lemma guarded_after_x (G : TicTacToe) (rc : Z * Z) :
  guarded G -> over G = false -> current_player G = X -> rc ∈ moves G ->
  guarded (play G rc).
Proof.
  intros (Hwf & Hg) Hov Hturn Hrc. rewrite Hov, Hturn in Hg.
  destruct Hg as (n & Hn).
  destruct (play_spec G rc Hwf Hrc) as (_ & Hwf' & _ & Ht).
  split; [exact Hwf'|].
  destruct n as [|n]; simpl in Hn; rewrite Hov in Hn; [discriminate|].
  rewrite forallb_forall in Hn.
  specialize (Hn rc (proj1 (list_elem_of_In _ _) Hrc)). simpl in Hn.
  destruct (over (play G rc)); [now apply negb_true_iff|].
  rewrite Ht, Hturn. simpl.
  destruct (ai_reply (play G rc)) as [m|]; [|discriminate].
  now exists n, m.
Qed.

(** The program has replied. *)
Lemma guarded_after_o (G : TicTacToe) :
  guarded G -> over G = false -> current_player G = O ->
  exists m, ai_reply G = Some m /\ m ∈ moves G /\ guarded (play G m).
Proof.
  intros (Hwf & Hg) Hov Hturn. rewrite Hov, Hturn in Hg.
  destruct Hg as (n & m & Hm & Hn).
  pose proof (ai_reply_legal G m Hm) as Hin.
  exists m. split; [exact Hm|split; [exact Hin|]].
  destruct (play_spec G m Hwf Hin) as (_ & Hwf' & _ & Ht).
  split; [exact Hwf'|].
  destruct (over (play G m)) eqn:Hov'; [now apply over_has_line with n|].
  rewrite Ht, Hturn. simpl. now exists n.
Qed.

Lemma follows_trans (G1 G2 G3 : TicTacToe) :
  follows G1 G2 -> follows G2 G3 -> follows G1 G3.
Proof.
  intros H12 H23. induction H23 as [|G G' row col _ IH Hmv]; [exact H12|].
  eapply follows_move; eassumption.
Qed.

Lemma read_done (g : loc) (w : world) (G : TicTacToe) :
  heap w !! g = Some G -> read g w = Done (G, w).
Proof. intros Hg. unfold read. now rewrite Hg. Qed.

Lemma extends_more (out x out' : string) :
  (exists added, out' = (out +:+ x) +:+ added) ->
  exists added, out' = out +:+ added.
Proof.
  intros (added & ->). exists (x +:+ added). apply string_app_assoc.
Qed.

(** The loop, from a guarded board: it ends or waits for input, and the
    board it leaves is guarded. *)
Lemma game_loop_guarded (steps : nat) :
  forall fuel g inputs out w G,
    (8 < fuel)%nat -> heap w !! g = Some G -> guarded G ->
    (length inputs + blanks G < steps)%nat ->
    exists out' fin w' G',
      game_loop steps fuel g inputs out w = Done ((out', fin), w') /\
      (exists added, out' = out +:+ added) /\
      heap w' !! g = Some G' /\ guarded G' /\ follows G G' /\
      (if fin then over G' = true
       else exists before,
              out' = before +:+ "Enter row (0-2): " \/
              out' = before +:+ "Enter col (0-2): ").
Proof.
  induction steps as [|steps IH];
    intros fuel g inputs out w G Hfuel Hg Hgd Hsteps; [lia|].
  pose proof Hgd as (Hwf & _).
  cbn [game_loop].
  rewrite (bind_done _ _ _ _ _
             (query_done g is_game_over w G _ Hg (is_game_over_done G Hwf))).
  destruct (over G) eqn:Hov.
  { exists out, true, w, G. split; [reflexivity|].
    split; [exists EmptyString; now rewrite string_app_empty|].
    split; [exact Hg|split; [exact Hgd|split; [apply follows_here|]]].
    exact Hov. }
  rewrite (bind_done _ _ _ _ _
             (query_done g (fun G => Done (print_board G)) w G _ Hg eq_refl)).
  rewrite (bind_done _ _ _ _ _ (read_done g w G Hg)).
  destruct (current_player G) eqn:Hturn; cbn [player_eqb].
  - destruct inputs as [|row [|col rest]].
    + eexists _, false, w, G. split; [reflexivity|].
      split; [eexists; now rewrite !string_app_assoc|].
      split; [exact Hg|split; [exact Hgd|split; [apply follows_here|]]].
      eexists. left. reflexivity.
    + eexists _, false, w, G. split; [reflexivity|].
      split; [eexists; now rewrite !string_app_assoc|].
      split; [exact Hg|split; [exact Hgd|split; [apply follows_here|]]].
      eexists. right. reflexivity.
    + simpl in Hsteps.
      destruct (make_move_total G row col Hwf) as [[Hm Hmv]|Hmv];
        destruct (do_make_move_done g row col w G _ _ Hg Hmv)
          as (w1 & Hrun & Hg1 & _ & Hlen);
        rewrite (bind_done _ _ _ _ _ Hrun).
      * destruct (play_spec G (row, col) Hwf Hm) as (_ & _ & Hbl & _).
        destruct (IH fuel g rest
                    (((out +:+ print_board G) +:+ "Enter row (0-2): ")
                     +:+ "Enter col (0-2): ")
                    w1 (play G (row, col)) Hfuel Hg1
                    (guarded_after_x G (row, col) Hgd Hov Hturn Hm)
                    ltac:(lia))
          as (out' & fin & w' & G' & Hloop & Hext & Hg' & Hgd' & Hf & Hfin).
        exists out', fin, w', G'. split; [exact Hloop|].
        split; [now do 3 apply extends_more in Hext|].
        split; [exact Hg'|split; [exact Hgd'|split; [|exact Hfin]]].
        eapply follows_trans; [|exact Hf].
        eapply follows_move; [apply follows_here|exact Hmv].
      * destruct (IH fuel g rest
                    ((((out +:+ print_board G) +:+ "Enter row (0-2): ")
                      +:+ "Enter col (0-2): ")
                     +:+ print "Invalid move, try again.")
                    w1 G Hfuel Hg1 Hgd ltac:(lia))
          as (out' & fin & w' & G' & Hloop & Hext & Hg' & Hgd' & Hf & Hfin).
        exists out', fin, w', G'. split; [exact Hloop|].
        split; [now do 4 apply extends_more in Hext|].
        split; [exact Hg'|split; [exact Hgd'|split; [exact Hf|exact Hfin]]].
  - destruct (guarded_after_o G Hgd Hov Hturn) as (m & Hm & Hin & Hgd1).
    destruct (get_best_move_is_ai_reply fuel G g w Hfuel Hg Hwf)
      as (w1 & Hbest & Hg1).
    rewrite (bind_done _ _ _ _ _ Hbest), Hm.
    destruct (play_spec G m Hwf Hin) as (Hmv & _ & Hbl & _).
    destruct (do_make_move_done g (fst m) (snd m) w1 G _ _ Hg1 Hmv)
      as (w2 & Hrun & Hg2 & _ & Hlen).
    rewrite (bind_done _ _ _ _ _ Hrun).
    destruct (IH fuel g inputs
                ((out +:+ print_board G)
                 +:+ print ("AI moves to position (" +:+ pretty (fst m)
                            +:+ ", " +:+ pretty (snd m) +:+ ")"))
                w2 (play G m) Hfuel Hg2 Hgd1 ltac:(lia))
      as (out' & fin & w' & G' & Hloop & Hext & Hg' & Hgd' & Hf & Hfin).
    exists out', fin, w', G'. split; [exact Hloop|].
    split; [now do 2 apply extends_more in Hext|].
    split; [exact Hg'|split; [exact Hgd'|split; [|exact Hfin]]].
    eapply follows_trans; [|exact Hf].
    eapply follows_move; [apply follows_here|exact Hmv].
Qed.

(** Whatever X plays from the empty board, X has no line when the game is
    over: checked on all lines of play against the replies of
    [get_best_move]. *)
Lemma x_cannot_win_opening : x_cannot_win 5 new_game = true.
Proof. vm_compute. reflexivity. Qed.

Lemma guarded_new_game : guarded new_game.
Proof.
  split; [reflexivity|]. change (over new_game) with false.
  change (current_player new_game) with X.
  exists 5%nat. exact x_cannot_win_opening.
Qed.



(** * print_board *)

Lemma cell_char_inj (c d : cell) : cell_char c = cell_char d -> c = d.
Proof.
  destruct c as [|[|]], d as [|[|]]; simpl; intros E; try reflexivity;
    discriminate.
Qed.



(** * More about the interactive game *)

Lemma world_eta (w : world) : mkWorld (heap w) (ai w) = w.
Proof. now destruct w. Qed.

(** X16: an invalid move of the user changes nothing.  When X is to move
    and the two integers typed are not a legal move (a coordinate outside
    0..2, or an occupied cell), the loop writes the board, the two prompts
    and ["Invalid move, try again."], and goes on with the rest of the
    input from the very same store. *)
Theorem invalid_input_is_asked_again (steps fuel : nat) (g : loc)
    (row col : Z) (rest : list Z) (out : string) (w : world)
    (G : TicTacToe) :
  heap w !! g = Some G -> well_formed G ->
  is_game_over G = Done false -> current_player G = X ->
  ~ (in_grid row col /\ cell_at (board G) row col = Done Blank) ->
  game_loop (S steps) fuel g (row :: col :: rest) out w
  = game_loop steps fuel g rest
      ((((out +:+ print_board G) +:+ "Enter row (0-2): ")
        +:+ "Enter col (0-2): ") +:+ print "Invalid move, try again.") w.
Proof.
  intros Hg Hwf Hov Hturn Hbad. cbn [game_loop].
  rewrite (bind_done _ _ _ _ _ (query_done g is_game_over w G _ Hg Hov)).
  rewrite (bind_done _ _ _ _ _
             (query_done g (fun G => Done (print_board G)) w G _ Hg eq_refl)).
  rewrite (bind_done _ _ _ _ _ (read_done g w G Hg)).
  rewrite Hturn. cbn [player_eqb].
  assert (Hmv : make_move G row col = Done (false, G)).
  { destruct (make_move_total G row col Hwf) as [[Hm _]|Hmv]; [|exact Hmv].
    exfalso. apply Hbad. now apply in_moves_grid. }
  assert (Hrun : do_make_move g row col w = Done (false, w)).
  { unfold do_make_move, bind, read, lift, write, ret.
    rewrite Hg, Hmv. simpl. rewrite list_insert_id by exact Hg.
    now rewrite world_eta. }
  now rewrite (bind_done _ _ _ _ _ Hrun).
Qed.

Lemma invalid_input_is_asked_again_witness :
  game_loop 2 3 0%nat [0; 0; 2; 0] EmptyString (one_game late_game)
  = game_loop 1 3 0%nat [2; 0]
      ((((EmptyString +:+ print_board late_game) +:+ "Enter row (0-2): ")
        +:+ "Enter col (0-2): ") +:+ print "Invalid move, try again.")
      (one_game late_game).
Proof.
  apply (invalid_input_is_asked_again 1 3 0%nat 0 0 [2; 0] EmptyString
           (one_game late_game) late_game).
  - reflexivity.
  - reflexivity.
  - reflexivity.
  - reflexivity.
  - intros [_ E]. discriminate.
Defined.

Lemma line_needs_three_marks (G : TicTacToe) (p : player) :
  well_formed G -> has_line G p = true -> (3 <= mark_count p G)%nat.
Proof.
  intros H. grid G H. unfold mark_count. cbn [concat board app map].
  cbv -[cell_eqb Nat.le sum_list].
  repeat match goal with
         | |- context [cell_eqb ?c (Mark p)] =>
             destruct (cell_eqb c (Mark p))
         end; cbv; intros; try discriminate; lia.
Qed.

(** X17: no game ends early.  After fewer than five successful moves from
    a new game [is_game_over()] is false; X has no line before its third
    mark (the fifth move) and O none before its third (the sixth move). *)
Theorem no_end_before_the_fifth_move (n : nat) (G : TicTacToe) :
  played n G ->
  ((n < 5)%nat -> is_game_over G = Done false) /\
  ((n < 5)%nat -> is_winner G X = Done false) /\
  ((n < 6)%nat -> is_winner G O = Done false).
Proof.
  intros Hp. destruct (played_counts n G Hp) as (Hwf & Hbl & Hx & Ho & _).
  pose proof (Nat.div_mod_eq n 2).
  pose proof (Nat.div_mod_eq (n + 1) 2).
  pose proof (Nat.mod_upper_bound n 2 ltac:(lia)).
  pose proof (Nat.mod_upper_bound (n + 1) 2 ltac:(lia)).
  assert (HX : (n < 5)%nat -> has_line G X = false).
  { intros Hn. destruct (has_line G X) eqn:E; [|reflexivity].
    apply (line_needs_three_marks G X Hwf) in E. lia. }
  assert (HO : (n < 6)%nat -> has_line G O = false).
  { intros Hn. destruct (has_line G O) eqn:E; [|reflexivity].
    apply (line_needs_three_marks G O Hwf) in E. lia. }
  rewrite (is_game_over_cases G Hwf), !is_winner_has_line by assumption.
  split; [|split].
  - intros Hn. rewrite (HX Hn), (HO ltac:(lia)). simpl. f_equal.
    destruct (is_board_full G) eqn:E; [|reflexivity].
    apply (full_iff_no_blanks G Hwf) in E. lia.
  - intros Hn. now rewrite (HX Hn).
  - intros Hn. now rewrite (HO Hn).
Qed.

Lemma no_end_before_the_fifth_move_witness :
  ((2 < 5)%nat -> is_game_over two_moves = Done false) /\
  ((2 < 5)%nat -> is_winner two_moves X = Done false) /\
  ((2 < 6)%nat -> is_winner two_moves O = Done false).
Proof.
  apply (no_end_before_the_fifth_move 2 two_moves).
  eapply (played_more _ _ _ 0 0);
    [eapply (played_more _ _ _ 1 1); [apply played_none|]|];
    reflexivity.
Defined.

(** * More about get_best_move and compare_performance *)

Lemma value_of_bounded (use_alpha_beta : bool) (fuel : nat) (G : TicTacToe) :
  bounded (fst (value_of use_alpha_beta fuel G)).
Proof.
  unfold value_of. destruct use_alpha_beta;
    [apply ab_bounded|apply mm_bounded].
Qed.

Lemma value_of_finished (use_alpha_beta : bool) (fuel : nat)
    (G : TicTacToe) :
  over G = true ->
  fst (value_of use_alpha_beta (S fuel) G) = Fin (score G).
Proof.
  intros Hov. unfold value_of. destruct use_alpha_beta; simpl;
    now rewrite Hov.
Qed.

(** X18: [get_best_move] does not overlook a win for O.  If some legal
    move completes a line of O (and X has none), the move returned has the
    value -1, the least there is, under either strategy. *)
Theorem get_best_move_takes_a_win (fuel : nat) (use_alpha_beta : bool)
    (G G1 : TicTacToe) (g : loc) (w : world) (row col : Z) :
  heap w !! g = Some G -> well_formed G -> (blanks G <= fuel)%nat ->
  make_move G row col = Done (true, G1) ->
  is_winner G1 O = Done true -> is_winner G1 X = Done false ->
  exists best w',
    get_best_move fuel g use_alpha_beta w = Done (Some best, w') /\
    successor_value use_alpha_beta fuel G best = Done (Fin (-1)).
Proof.
  intros Hg Hwf Hfuel Hmv HO HX.
  destruct (make_move_is_play G G1 row col Hwf Hmv) as [Hin ->].
  set (rc := (row, col)) in *.
  destruct (play_spec G rc Hwf Hin) as (_ & Hwf1 & Hbl & _).
  rewrite is_winner_has_line in HO, HX by assumption.
  injection HO as HO. injection HX as HX.
  set (val := fun x => fst (value_of use_alpha_beta fuel (play G x))).
  assert (Hrc : val rc = Fin (-1)).
  { unfold val. destruct fuel as [|k]; [lia|].
    rewrite value_of_finished.
    - unfold score. rewrite !is_winner_has_line by assumption.
      simpl. now rewrite HX, HO.
    - pose proof (is_game_over_done (play G rc) Hwf1) as E.
      rewrite (is_game_over_cases (play G rc) Hwf1), HX, HO in E.
      simpl in E. now injection E. }
  destruct (get_best_move_refines use_alpha_beta fuel G g w Hg Hwf Hfuel)
    as (w' & Hrun & _).
  destruct (choose_spec (value_of use_alpha_beta fuel) G (moves G) None
              PosInf 0)
    as [[_ Hall]|(pre & b & post & Hsplit & Hres & _ & Hpre & Hpost)].
  - rewrite List.Forall_forall in Hall.
    specialize (Hall rc (proj1 (list_elem_of_In _ _) Hin)).
    fold (val rc) in Hall. rewrite Hrc in Hall. discriminate.
  - exists b, w'. rewrite Hrun, Hres. split; [reflexivity|].
    assert (Hb : b ∈ moves G)
      by (rewrite Hsplit; apply elem_of_app; right; constructor).
    rewrite (successor_value_done use_alpha_beta fuel G b Hwf Hfuel Hb).
    f_equal. fold (val b).
    destruct (play_spec G b Hwf Hb) as (_ & Hwfb & Hblb & _).
    pose proof (value_of_finite use_alpha_beta fuel (play G b) Hwfb
                  ltac:(lia)) as Hfin.
    pose proof (value_of_bounded use_alpha_beta fuel (play G b)) as Hbd.
    fold (val b) in Hfin, Hbd.
    rewrite List.Forall_forall in Hpre, Hpost.
    rewrite Hsplit in Hin.
    apply elem_of_app in Hin as [Hin|Hin];
      [|apply elem_of_cons in Hin as [E|Hin]].
    + specialize (Hpre rc (proj1 (list_elem_of_In _ _) Hin)).
      fold (val b) (val rc) in Hpre. rewrite Hrc in Hpre.
      destruct (val b) as [|z|]; simpl in *; try contradiction.
      apply Z.ltb_lt in Hpre. lia.
    + now rewrite <- E.
    + specialize (Hpost rc (proj1 (list_elem_of_In _ _) Hin)).
      fold (val b) (val rc) in Hpost. rewrite Hrc in Hpost.
      destruct (val b) as [|z|]; simpl in *; try contradiction.
      apply Z.ltb_ge in Hpost. f_equal. lia.
Qed.

Lemma get_best_move_takes_a_win_witness :
  exists best w',
    get_best_move 4 0%nat false (one_game o_to_win)
    = Done (Some best, w') /\
    successor_value false 4 o_to_win best = Done (Fin (-1)).
Proof.
  apply (get_best_move_takes_a_win 4 false o_to_win
           (mkTicTacToe [[Mark X; Mark O; Mark X];
                         [Blank; Mark O; Mark X];
                         [Blank; Mark O; Blank]] X)
           0%nat (one_game o_to_win) 2 1).
  - reflexivity.
  - reflexivity.
  - vm_compute. lia.
  - reflexivity.
  - reflexivity.
  - reflexivity.
Defined.

Lemma percentage_bounds (m a : Z) :
  0 < a -> a < m ->
  (0 < inject_Z (m - a) / inject_Z m * inject_Z 100 /\
   inject_Z (m - a) / inject_Z m * inject_Z 100 < inject_Z 100)%Q.
Proof.
  intros Ha Hm. destruct m as [|p|p]; try lia.
  unfold Qlt, Qdiv, Qmult, Qinv, inject_Z. cbn [Qnum Qden].
  rewrite !Pos.mul_1_l, !Pos.mul_1_r. lia.
Qed.

(** X19: [compare_performance] never divides by zero: given enough fuel
    it returns its report from any store.  In the report the alpha-beta
    count is positive and below the minimax count, and the node reduction
    is ((minimax - alpha_beta) / minimax) * 100, strictly between 0 and
    100.  The game objects that existed before are still there unchanged,
    and the board the benchmark searched is still empty. *)
Theorem compare_performance_report (fuel : nat) (w : world) :
  (8 < fuel)%nat ->
  exists r w',
    compare_performance fuel w = Done (r, w') /\
    0 < alpha_beta_nodes r < minimax_nodes r /\
    node_reduction r
    = (inject_Z (minimax_nodes r - alpha_beta_nodes r)
       / inject_Z (minimax_nodes r) * inject_Z 100)%Q /\
    (0 < node_reduction r /\ node_reduction r < inject_Z 100)%Q /\
    heap w `prefix_of` heap w' /\
    heap w' !! length (heap w) = Some new_game /\
    nodes_visited_minimax (ai w') = minimax_nodes r /\
    nodes_visited_alpha_beta (ai w') = alpha_beta_nodes r.
Proof.
  intros Hfuel. unfold compare_performance.
  set (g := length (heap w)).
  set (w1 := mkWorld (heap w ++ [new_game]) (ai w)).
  rewrite (bind_done new_object _ w w1 g eq_refl).
  set (w2 := mkWorld (heap w1) (mkTicTacToeAI 0 0)).
  rewrite (bind_done new_ai _ w1 w2 tt eq_refl).
  rewrite (bind_done reset_minimax _ w2 w2 tt eq_refl).
  assert (Hg : heap w2 !! g = Some new_game)
    by (unfold w2, w1, g; simpl; now rewrite list_lookup_middle).
  destruct (get_best_move_refines false fuel new_game g w2 Hg
              new_game_well_formed ltac:(rewrite new_game_blanks; lia))
    as (w3 & Hrun1 & Hgr1).
  rewrite (bind_done _ _ _ _ _ Hrun1).
  rewrite (bind_done get_ai _ w3 w3 (ai w3) eq_refl).
  set (w4 := mkWorld (heap w3)
               (mkTicTacToeAI (nodes_visited_minimax (ai w3)) 0)).
  rewrite (bind_done reset_alpha_beta _ w3 w4 tt eq_refl).
  assert (Hg4 : heap w4 !! g = Some new_game)
    by (change (heap w3 !! g = Some new_game);
        eapply grows_lookup; eassumption).
  destruct (get_best_move_refines true fuel new_game g w4 Hg4
              new_game_well_formed ltac:(rewrite new_game_blanks; lia))
    as (w5 & Hrun2 & Hgr2).
  rewrite (bind_done _ _ _ _ _ Hrun2).
  rewrite (bind_done get_ai _ w5 w5 (ai w5) eq_refl).
  assert (Hg5 : heap w5 !! g = Some new_game)
    by (eapply grows_lookup; eassumption).
  destruct Hgr1 as (Hp1 & Hm1 & _). destruct Hgr2 as (Hp2 & Hm2 & Ha2).
  unfold w2 in Hm1. unfold w4 in Ha2, Hm2.
  cbn [ai nodes_visited_minimax nodes_visited_alpha_beta] in Hm1, Hm2, Ha2.
  pose proof (opening_nodes fuel Hfuel) as Hlt.
  rewrite (choose_fuel true fuel 9 new_game new_game_well_formed) in Hlt, Ha2
    by (rewrite new_game_blanks; lia).
  rewrite opening_alpha_beta_nodes in Hlt, Ha2.
  unfold py_div.
  destruct (nodes_visited_minimax (ai w3) =? 0) eqn:E;
    [apply Z.eqb_eq in E; lia|].
  eexists _, w5. unfold bind, ret. split; [reflexivity|].
  cbn [minimax_nodes alpha_beta_nodes node_reduction].
  split; [lia|]. split; [reflexivity|].
  split; [apply percentage_bounds; lia|].
  split.
  { etrans; [|exact Hp2]. change (heap w4) with (heap w3).
    etrans; [|exact Hp1]. unfold w2, w1. simpl. now apply prefix_app_r. }
  split; [exact Hg5|]. split; lia.
Qed.

Lemma compare_performance_report_witness :
  exists r w',
    compare_performance 9 (one_game late_game) = Done (r, w') /\
    0 < alpha_beta_nodes r < minimax_nodes r /\
    node_reduction r
    = (inject_Z (minimax_nodes r - alpha_beta_nodes r)
       / inject_Z (minimax_nodes r) * inject_Z 100)%Q /\
    (0 < node_reduction r /\ node_reduction r < inject_Z 100)%Q /\
    heap (one_game late_game) `prefix_of` heap w' /\
    heap w' !! length (heap (one_game late_game)) = Some new_game /\
    nodes_visited_minimax (ai w') = minimax_nodes r /\
    nodes_visited_alpha_beta (ai w') = alpha_beta_nodes r.
Proof.
  apply (compare_performance_report 9 (one_game late_game)). lia.
Defined.
